(** * Staking ledger, decimal coins, slashing hooks and chain state

    A shallow embedding of the ledger code of the repository and the
    properties its specification states about it.

    - [DecCoins]  : x/distribution/types decimal coins ([DecCoin.Plus],
                    [DecCoins.Plus], [DecCoins.Mul]).
    - [ChainState]: state/state.go ([SetChainID], [GetChainID]).
    - [Slashing]  : x/slashing hooks ([onValidatorBonded]).
    - [Stake]     : x/stake pool and candidate ledger driven by the
                    randomized invariant test.
    - [Keeper]    : delegation / unbonding keeper scenarios. *)

From Stdlib Require Import ZArith QArith Qround Lqa String.
From Stdlib Require Import OrdersEx Sorted.
From stdpp Require Import base option list gmap strings.

Local Open Scope Z_scope.

(* ===================================================================== *)
(** * Decimal coins *)
(* ===================================================================== *)

Module DecCoins.

(** [sdk.Dec] is declared outside the files at hand; the coin code only
    uses its methods Add, Mul and IsZero, which are taken as an interface.
    [Dec_Zero] is the value [make] fills a fresh slice with. *)
Class SdkDec (Dec : Type) := {
  Dec_Add : Dec -> Dec -> Dec;
  Dec_Mul : Dec -> Dec -> Dec;
  Dec_IsZero : Dec -> bool;
  Dec_Zero : Dec
}.

Section WithDec.
Context {Dec : Type} `{SdkDec Dec}.

(** type DecCoin struct { Denom string; Amount sdk.Dec } *)
Record DecCoin := mkDecCoin { Denom : string; Amount : Dec }.

(** func (coin DecCoin) Plus(coinB DecCoin) DecCoin *)
Definition DecCoin_Plus (coin coinB : DecCoin) : DecCoin :=
  if negb (String.eqb (Denom coin) (Denom coinB)) then coin
  else mkDecCoin (Denom coin) (Dec_Add (Amount coin) (Amount coinB)).

(** type DecCoins []DecCoin *)
Local Abbreviation DecCoins := (list DecCoin).

(** The [for] loop of [DecCoins.Plus], one iteration per unit of fuel.
    [sum], [indexA] and [indexB] are the loop's variables;
    [strings.Compare] is the byte-wise lexicographic comparison.  Reading
    an index that is out of range (which would panic) gives [None], and so
    does running out of fuel. *)
Fixpoint PlusLoop (fuel : nat) (coins coinsB : DecCoins)
    (sum : list DecCoin) (indexA indexB : nat) : option DecCoins :=
  match fuel with
  | O => None
  | S fuel' =>
    if Nat.eqb indexA (length coins) then
      if Nat.eqb indexB (length coinsB) then Some sum
      else Some (sum ++ drop indexB coinsB)
    else if Nat.eqb indexB (length coinsB) then
      Some (sum ++ drop indexA coins)
    else
      match coins !! indexA, coinsB !! indexB with
      | Some coinA, Some coinB =>
        match String.compare (Denom coinA) (Denom coinB) with
        | Lt => PlusLoop fuel' coins coinsB (sum ++ [coinA]) (S indexA) indexB
        | Eq =>
          if Dec_IsZero (Dec_Add (Amount coinA) (Amount coinB)) then
            (* ignore 0 sum coin type *)
            PlusLoop fuel' coins coinsB sum (S indexA) (S indexB)
          else
            PlusLoop fuel' coins coinsB (sum ++ [DecCoin_Plus coinA coinB])
                     (S indexA) (S indexB)
        | Gt => PlusLoop fuel' coins coinsB (sum ++ [coinB]) indexA (S indexB)
        end
      | _, _ => None
      end
  end.

(** func (coins DecCoins) Plus(coinsB DecCoins) DecCoins *)
Definition Plus (coins coinsB : DecCoins) : option DecCoins :=
  PlusLoop (length coins + length coinsB + 1) coins coinsB [] 0 0.



(** ** Specification-side notions *)

(** Denominations strictly increasing: sorted and unique. *)
Definition denomLt (c d : DecCoin) : Prop :=
  String.compare (Denom c) (Denom d) = Lt.

Definition denomSorted (l : DecCoins) : Prop := StronglySorted denomLt l.

Definition noZeroAmount (l : DecCoins) : Prop :=
  Forall (fun c => Dec_IsZero (Amount c) = false) l.

(** A canonical list: sorted by denomination, denominations unique, no
    zero-amount entry. *)
Definition canonical (l : DecCoins) : Prop :=
  denomSorted l /\ noZeroAmount l.

(** The amount a list holds for a denomination, if it has an entry. *)
Fixpoint amountOf (d : string) (l : DecCoins) : option Dec :=
  match l with
  | [] => None
  | c :: l' => if String.eqb (Denom c) d then Some (Amount c) else amountOf d l'
  end.

(** What a merge by denomination holds at one denomination: the entry of
    the side that has it, the sum when both have it, nothing when that sum
    is zero. *)
Definition summedEntry (x y : option Dec) : option Dec :=
  match x, y with
  | Some x, Some y => if Dec_IsZero (Dec_Add x y) then None else Some (Dec_Add x y)
  | Some x, None => Some x
  | None, Some y => Some y
  | None, None => None
  end.

(** The merge as a structural recursion on both lists. *)
Fixpoint merge (a : DecCoins) : DecCoins -> DecCoins :=
  fix merge_b (b : DecCoins) : DecCoins :=
    match a, b with
    | [], _ => b
    | _, [] => a
    | ca :: a', cb :: b' =>
      match String.compare (Denom ca) (Denom cb) with
      | Lt => ca :: merge a' b
      | Eq => if Dec_IsZero (Dec_Add (Amount ca) (Amount cb)) then merge a' b'
              else DecCoin_Plus ca cb :: merge a' b'
      | Gt => cb :: merge_b b'
      end
    end.

End WithDec.

Arguments DecCoin : clear implicits.
Abbreviation DecCoins Dec := (list (DecCoin Dec)).

(** An instance to run the code on: decimals with 18 fractional digits
    kept as scaled integers; the product is cut back to 18 digits. *)
Definition precision : Z := 10 ^ 18.

#[export] Instance ZDec : SdkDec Z := {
  Dec_Add := Z.add;
  Dec_Mul := fun a b => (a * b) / precision;
  Dec_IsZero := fun a => Z.eqb a 0;
  Dec_Zero := 0
}.

End DecCoins.

(* ===================================================================== *)
(** * Chain state (state/state.go) *)
(* ===================================================================== *)

Module ChainState.

(** A call that either returns or panics with a message. *)
Inductive outcome (A : Type) : Type :=
  | Returns (a : A)
  | Panics (msg : string).
Arguments Returns {A} a.
Arguments Panics {A} msg.

(** type checkAccount struct { sequence int; balance int64 } *)
Record checkAccount := mkCheckAccount { sequence : Z; balance : Z }.

(** type State struct.  [eyesCli] is a client handle whose calls are not
    needed here; it is kept as an opaque number. *)
Record State := mkState {
  chainID : string;
  eyesCli : N;
  checkCache : gmap string checkAccount;
  LastBlockHeight : Z;
  LastBlockHash : list Z;
  GasLimit : Z
}.

(** func NewState(eyesCli *eyes.Client) *State *)
Definition NewState (cli : N) : State :=
  mkState EmptyString cli ∅ 0 [] 0.

(** func (s *State) SetChainID(chainID string) *)
Definition SetChainID (s : State) (id : string) : State :=
  mkState id (eyesCli s) (checkCache s) (LastBlockHeight s)
          (LastBlockHash s) (GasLimit s).

(** func (s *State) GetChainID() string *)
Definition GetChainID (s : State) : outcome string :=
  if String.eqb (chainID s) EmptyString then
    Panics "Expected to have set SetChainID"
  else Returns (chainID s).

(** string(addr): the bytes of the slice, as the map key. *)
Definition addrKey (addr : list Byte.byte) : string :=
  string_of_list_byte addr.

(** func (s *State) GetCheckAccount(addr []byte, defaultSequence int,
    defaultBalance int64) (sequence int, balance int64) *)
Definition GetCheckAccount (s : State) (addr : list Byte.byte)
    (defaultSequence defaultBalance : Z) : Z * Z :=
  match checkCache s !! addrKey addr with
  | None => (defaultSequence, defaultBalance)
  | Some cAcc => (sequence cAcc, balance cAcc)
  end.

(** func (s *State) SetCheckAccount(addr []byte, sequence int, balance int64) *)
Definition SetCheckAccount (s : State) (addr : list Byte.byte)
    (seq bal : Z) : State :=
  mkState (chainID s) (eyesCli s)
          (<[addrKey addr := mkCheckAccount seq bal]> (checkCache s))
          (LastBlockHeight s) (LastBlockHash s) (GasLimit s).

(** func (s *State) ResetCacheState() *)
Definition ResetCacheState (s : State) : State :=
  mkState (chainID s) (eyesCli s) ∅
          (LastBlockHeight s) (LastBlockHash s) (GasLimit s).

End ChainState.

(* ===================================================================== *)
(** * Slashing hooks (x/slashing) *)
(* ===================================================================== *)

Module Slashing.

(** sdk.ConsAddress is a byte string. *)
Abbreviation ConsAddress := (list N).

(** time.Time, as seconds and nanoseconds since the Unix epoch. *)
Record Time := mkTime { sec : Z; nsec : Z }.

(** time.Unix(sec, nsec) *)
Definition Unix (s n : Z) : Time := mkTime s n.

(** type ValidatorSigningInfo struct, with the fields the hook's literal
    sets ([SI_StartHeight] is its StartHeight). *)
Record ValidatorSigningInfo := mkSigningInfo {
  SI_StartHeight : Z;
  IndexOffset : Z;
  JailedUntil : Time;
  SignedBlocksCounter : Z
}.

(** [SlashedSoFar] is an sdk.Dec, kept as its scaled integer;
    sdk.ZeroDec() is 0. *)
Record ValidatorSlashingPeriod := mkSlashingPeriod {
  ValidatorAddr : ConsAddress;
  StartHeight : Z;
  EndHeight : Z;
  SlashedSoFar : Z
}.

Definition ZeroDec : Z := 0.

(** The part of sdk.Context the hook reads and writes: the block height
    and the keeper's store. *)
Record Context := mkContext {
  BlockHeight : Z;
  signingInfos : gmap ConsAddress ValidatorSigningInfo;
  slashingPeriods : gmap (ConsAddress * Z) ValidatorSlashingPeriod
}.

(** Modelled from the spec: the keeper's store accessors, which are not
    among the files at hand.  Signing infos are stored under
    signinginfo/<addr>, slashing periods under
    slashingperiod/<addr><startHeight>; a get of an absent key reports
    not found, a set overwrites. *)
Definition getValidatorSigningInfo (ctx : Context) (address : ConsAddress)
    : option ValidatorSigningInfo :=
  signingInfos ctx !! address.

Definition setValidatorSigningInfo (ctx : Context) (address : ConsAddress)
    (info : ValidatorSigningInfo) : Context :=
  mkContext (BlockHeight ctx) (<[address := info]> (signingInfos ctx))
            (slashingPeriods ctx).

Definition addOrUpdateValidatorSlashingPeriod (ctx : Context)
    (period : ValidatorSlashingPeriod) : Context :=
  mkContext (BlockHeight ctx) (signingInfos ctx)
            (<[(ValidatorAddr period, StartHeight period) := period]>
               (slashingPeriods ctx)).

(** func (k Keeper) onValidatorBonded(ctx sdk.Context, address sdk.ConsAddress) *)
Definition onValidatorBonded (ctx : Context) (address : ConsAddress)
    : Context :=
  (* Create a new signing info if necessary *)
  let ctx1 :=
    match getValidatorSigningInfo ctx address with
    | Some _ => ctx
    | None =>
      let signingInfo := mkSigningInfo (BlockHeight ctx) 0 (Unix 0 0) 0 in
      setValidatorSigningInfo ctx address signingInfo
    end in
  (* Create a new slashing period when a validator is bonded *)
  let slashingPeriod :=
    mkSlashingPeriod address (BlockHeight ctx1) 0 ZeroDec in
  addOrUpdateValidatorSlashingPeriod ctx1 slashingPeriod.

(** func (h Hooks) OnValidatorBonded(ctx sdk.Context, address sdk.ConsAddress) *)
Definition OnValidatorBonded (ctx : Context) (address : ConsAddress)
    : Context :=
  onValidatorBonded ctx address.

(** ctx.WithBlockHeight(height) *)
Definition WithBlockHeight (ctx : Context) (height : Z) : Context :=
  mkContext height (signingInfos ctx) (slashingPeriods ctx).

Section WithPeriodLookup.

(** The keeper's lookup of the slashing period in force at a height is not
    among the files at hand; the hook below is stated for any such
    lookup. *)
Variable getValidatorSlashingPeriodForHeight :
  Context -> ConsAddress -> Z -> ValidatorSlashingPeriod.

(** func (k Keeper) onValidatorBeginUnbonding(ctx sdk.Context, address sdk.ConsAddress) *)
Definition onValidatorBeginUnbonding (ctx : Context) (address : ConsAddress)
    : Context :=
  let slashingPeriod :=
    getValidatorSlashingPeriodForHeight ctx address (BlockHeight ctx) in
  let slashingPeriod :=
    mkSlashingPeriod (ValidatorAddr slashingPeriod)
                     (StartHeight slashingPeriod) (BlockHeight ctx)
                     (SlashedSoFar slashingPeriod) in
  addOrUpdateValidatorSlashingPeriod ctx slashingPeriod.

(** func (h Hooks) OnValidatorBeginUnbonding(ctx sdk.Context, address sdk.ConsAddress) *)
Definition OnValidatorBeginUnbonding (ctx : Context) (address : ConsAddress)
    : Context :=
  onValidatorBeginUnbonding ctx address.

End WithPeriodLookup.

End Slashing.

(* ===================================================================== *)
(** * Pool and candidate ledger (x/stake) *)
(* ===================================================================== *)

Module Stake.

(** ** Numbers *)

(** Go's int64: a sum or difference is taken modulo 2^64 into
    [-2^63, 2^63). *)
Definition wrap64 (z : Z) : Z := (z + 2 ^ 63) mod 2 ^ 64 - 2 ^ 63.

(** sdk.Rat is an arbitrary-precision rational (a big.Rat); its methods
    are the operations of [Q]. *)
Abbreviation Rat := Q.

Definition NewRat (n : Z) : Rat := inject_Z n.
Definition ZeroRat : Rat := 0%Q.
Definition OneRat : Rat := 1%Q.
Definition IsZero (r : Rat) : bool := Qeq_bool r 0.
Definition LT (a b : Rat) : bool := negb (Qle_bool b a).
Definition GT (a b : Rat) : bool := negb (Qle_bool a b).

(** Modelled from the spec: Rat.Evaluate, the conversion of a rational
    share value to int64 tokens, is not among the files at hand.  The spec
    has token amounts "floor-rounded toward the pool (never round in the
    withdrawer's favor)". *)
Definition Evaluate (r : Rat) : Z := wrap64 (Qfloor r).

(** ** Data *)

(** Modelled from the spec: the status of a candidate, "status: {Bonded,
    Unbonded, Unbonding}"; its declaration is not among the files at hand. *)
Inductive CandidateStatus := Bonded | Unbonded | Unbonding.

Definition isBonded (s : CandidateStatus) : bool :=
  match s with Bonded => true | _ => false end.

(** type Candidate struct, with the fields the test literals set. *)
Record Candidate := mkCandidate {
  Status : CandidateStatus;
  Address : string;
  PubKey : string;
  Assets : Rat;
  Liabilities : Rat
}.

Abbreviation Candidates := (list Candidate).

(** type Pool struct, with the fields [randomSetup] sets. *)
Record Pool := mkPool {
  TotalSupply : Z;
  BondedShares : Rat;
  UnbondedShares : Rat;
  BondedPool : Z;
  UnbondedPool : Z;
  InflationLastTime : Z;
  Inflation : Rat
}.

Definition withStatus (c : Candidate) (s : CandidateStatus) : Candidate :=
  mkCandidate s (Address c) (PubKey c) (Assets c) (Liabilities c).

Definition withShares (c : Candidate) (assets liabilities : Rat) : Candidate :=
  mkCandidate (Status c) (Address c) (PubKey c) assets liabilities.

Definition withBonded (p : Pool) (shares : Rat) (tokens : Z) : Pool :=
  mkPool (TotalSupply p) shares (UnbondedShares p) tokens (UnbondedPool p)
         (InflationLastTime p) (Inflation p).

Definition withUnbonded (p : Pool) (shares : Rat) (tokens : Z) : Pool :=
  mkPool (TotalSupply p) (BondedShares p) shares (BondedPool p) tokens
         (InflationLastTime p) (Inflation p).

(** ** The pool engine *)

(** Modelled from the spec: pool.go (the exchange rates and the six pool
    operations of section 4.2) is not among the files at hand; only its
    tests are.  "bondedShareExRate = bondedPool / bondedShares (defined as
    1 when bondedShares is zero) and symmetric for unbonded". *)
Definition bondedShareExRate (p : Pool) : Rat :=
  if IsZero (BondedShares p) then OneRat
  else (NewRat (BondedPool p) / BondedShares p)%Q.

Definition unbondedShareExRate (p : Pool) : Rat :=
  if IsZero (UnbondedShares p) then OneRat
  else (NewRat (UnbondedPool p) / UnbondedShares p)%Q.

(** Modelled from the spec: "delegatorShareExRate = assets / liabilities
    (1 if liabilities is zero)". *)
Definition delegatorShareExRate (c : Candidate) : Rat :=
  if IsZero (Liabilities c) then OneRat
  else (Assets c / Liabilities c)%Q.

(** Modelled from the spec: AddTokensBonded(pool, tokens) gives (pool',
    sharesIssued).  Shares are issued at the rate before the deposit;
    with the rate in tokens per share, "adding N tokens to a pool whose
    exchange rate is r issues exactly N/r shares" (section 4.2 words it as
    a product with the rate; the two agree at rate 1, and the facts below
    only use that the shares issued are not negative when the tokens and
    the rate are not).  A rate of zero has no inverse; [Qdiv] issues no
    shares there. *)
Definition addTokensBonded (p : Pool) (amount : Z) : Pool * Rat :=
  let issuedShares := (NewRat amount / bondedShareExRate p)%Q in
  (withBonded p (BondedShares p + issuedShares)%Q
              (wrap64 (BondedPool p + amount)),
   issuedShares).

Definition addTokensUnbonded (p : Pool) (amount : Z) : Pool * Rat :=
  let issuedShares := (NewRat amount / unbondedShareExRate p)%Q in
  (withUnbonded p (UnbondedShares p + issuedShares)%Q
                (wrap64 (UnbondedPool p + amount)),
   issuedShares).

(** Modelled from the spec: RemoveSharesBonded(pool, shares) gives (pool',
    tokensReturned), "tokens returned on withdrawal = shares *
    currentExchangeRate, floor-rounded toward the pool". *)
Definition removeSharesBonded (p : Pool) (shares : Rat) : Pool * Z :=
  let removedTokens := Evaluate (bondedShareExRate p * shares)%Q in
  (withBonded p (BondedShares p - shares)%Q
              (wrap64 (BondedPool p - removedTokens)),
   removedTokens).

Definition removeSharesUnbonded (p : Pool) (shares : Rat) : Pool * Z :=
  let removedTokens := Evaluate (unbondedShareExRate p * shares)%Q in
  (withUnbonded p (UnbondedShares p - shares)%Q
                (wrap64 (UnbondedPool p - removedTokens)),
   removedTokens).

(** Modelled from the spec: BondedToUnbonded(pool, validator) gives
    (pool', validator').  "Moving a validator between bonded/unbonded
    pools removes its token value from one pool's tally and adds the
    identical amount to the other; share accounting for that validator is
    unaffected by the move itself (its own internal shares/liabilities are
    untouched; only which pool's totals it contributes to changes)."  The
    validator's shares leave the totals of the pool it was in and enter
    the totals of the other, together with their token value; the shares
    the candidates of a pool hold then still add up to the pool's, which
    is what [assertInvariants] requires after every operation. *)
Definition bondedToUnbondedPool (p : Pool) (candidate : Candidate)
    : Pool * Candidate :=
  let '(p1, tokens) := removeSharesBonded p (Assets candidate) in
  (withUnbonded p1 (UnbondedShares p1 + Assets candidate)%Q
                (wrap64 (UnbondedPool p1 + tokens)),
   withStatus candidate Unbonded).

Definition unbondedToBondedPool (p : Pool) (candidate : Candidate)
    : Pool * Candidate :=
  let '(p1, tokens) := removeSharesUnbonded p (Assets candidate) in
  (withBonded p1 (BondedShares p1 + Assets candidate)%Q
              (wrap64 (BondedPool p1 + tokens)),
   withStatus candidate Bonded).

(** Modelled from the spec: candidateAddTokens and candidateRemoveShares
    are called by the tests but defined in pool.go.  Tokens given to a
    candidate enter the pool it is in (section 4.2) and the pool shares
    issued become its assets; TestCandidateAddTokens has the delegator
    shares issued equal to the issued pool shares times
    delegatorShareExRate.  TestCandidateRemoveShares has the assets go
    down by the removed delegator shares times delegatorShareExRate, that
    many pool shares being withdrawn for tokens. *)
Definition candidateAddTokens (p : Pool) (candidate : Candidate) (amount : Z)
    : Pool * Candidate * Rat :=
  let exRate := delegatorShareExRate candidate in
  let '(p1, receivedGlobalShares) :=
    if isBonded (Status candidate) then addTokensBonded p amount
    else addTokensUnbonded p amount in
  let issuedDelegatorShares := (exRate * receivedGlobalShares)%Q in
  (p1,
   withShares candidate (Assets candidate + receivedGlobalShares)%Q
              (Liabilities candidate + issuedDelegatorShares)%Q,
   issuedDelegatorShares).

Definition candidateRemoveShares (p : Pool) (candidate : Candidate)
    (shares : Rat) : Pool * Candidate * Z :=
  let globalPoolSharesToRemove :=
    (delegatorShareExRate candidate * shares)%Q in
  let '(p1, createdCoins) :=
    if isBonded (Status candidate)
    then removeSharesBonded p globalPoolSharesToRemove
    else removeSharesUnbonded p globalPoolSharesToRemove in
  (p1,
   withShares candidate (Assets candidate - globalPoolSharesToRemove)%Q
              (Liabilities candidate - shares)%Q,
   createdCoins).

(** Modelled from the spec: "Every operation must re-verify, as a
    post-condition, that bondedShares >= 0, unbondedShares >= 0, and both
    exchange rates >= 0; violating this is a fatal internal-invariant
    failure, not a recoverable error." *)
Definition postcondition (p : Pool) : bool :=
  negb (LT (BondedShares p) ZeroRat)
  && negb (LT (UnbondedShares p) ZeroRat)
  && negb (LT (bondedShareExRate p) ZeroRat)
  && negb (LT (unbondedShareExRate p) ZeroRat).

(** ** The randomized test harness (pool_test.go) *)

(** What [randomCandidate] draws from the generator: the coin that picks
    the status, the key, and two numbers below 10000. *)
Record CandidateDraw := mkCandidateDraw {
  drawBonded : bool;
  drawPubKey : string;
  drawAssets : Z;
  drawLiabilities : Z
}.

(** func randomCandidate(r *rand.Rand) Candidate *)
Definition randomCandidate (d : CandidateDraw) : Candidate :=
  let status := if drawBonded d then Bonded else Unbonded in
  mkCandidate status "A58856F0FD53BF058B4909A21AEC019107BA6160"
              (drawPubKey d) (NewRat (drawAssets d))
              (NewRat (drawLiabilities d)).

(** The staking state the operations transform: pool, candidates and the
    tokens held outside the pools. *)
Definition StakingState : Type := Pool * Candidates * Z.

(** The loop body of [randomSetup]. *)
Definition setupStep (acc : Pool * Candidates) (d : CandidateDraw)
    : Pool * Candidates :=
  let '(pool, candidates) := acc in
  let candidate := randomCandidate d in
  let pool :=
    if isBonded (Status candidate) then
      withBonded pool (BondedShares pool + Assets candidate)%Q
                 (wrap64 (BondedPool pool + Evaluate (Assets candidate)))
    else
      withUnbonded pool (UnbondedShares pool + Assets candidate)%Q
                   (wrap64 (UnbondedPool pool + Evaluate (Assets candidate))) in
  (pool, candidates ++ [candidate]).

(** func randomSetup(r *rand.Rand) (Pool, Candidates, int64) *)
Definition randomSetup (draws : list CandidateDraw) (tokens : Z)
    : StakingState :=
  let pool := mkPool 0 ZeroRat ZeroRat 0 0 0 (7 # 100)%Q in
  (fold_left setupStep draws (pool, []), tokens).

(** The generator's outputs are in range: fewer than 1000 candidates,
    numbers below 10000. *)
Definition validCandidateDraw (d : CandidateDraw) : Prop :=
  0 <= drawAssets d < 10000 /\ 0 <= drawLiabilities d < 10000.

Definition validSetup (draws : list CandidateDraw) (tokens : Z) : Prop :=
  (length draws < 1000)%nat /\ Forall validCandidateDraw draws
  /\ 0 <= tokens < 10000.

(** The three operations of [randomOperation], with the numbers each one
    draws.  An index outside the slice panics: no result. *)
Definition opBondUnbond (index : nat) (s : StakingState)
    : option StakingState :=
  let '(p, c, t) := s in
  match c !! index with
  | None => None
  | Some cand =>
    let '(p, cand) :=
      if isBonded (Status cand) then
        let '(p, cand) := bondedToUnbondedPool p cand in
        (p, withStatus cand Unbonded)
      else
        let '(p, cand) := unbondedToBondedPool p cand in
        (p, withStatus cand Bonded) in
    Some (p, <[index := cand]> c, t)
  end.

Definition opAddTokens (tokens : Z) (index : nat) (s : StakingState)
    : option StakingState :=
  let '(p, c, t) := s in
  match c !! index with
  | None => None
  | Some cand =>
    let '(p, cand, _) := candidateAddTokens p cand tokens in
    Some (p, <[index := cand]> c, wrap64 (t - tokens))
  end.

Definition opRemoveShares (drawn : Z) (index : nat) (s : StakingState)
    : option StakingState :=
  let '(p, c, t) := s in
  let shares := NewRat drawn in
  match c !! index with
  | None => None
  | Some cand =>
    let shares :=
      if GT shares (Liabilities cand)
      then (Liabilities cand / NewRat 2)%Q else shares in
    let '(p, cand, tokens) := candidateRemoveShares p cand shares in
    Some (p, <[index := cand]> c, wrap64 (t + tokens))
  end.

(** One pick of [randomOperation]. *)
Inductive Operation :=
  | BondUnbond (index : nat)
  | AddTokens (tokens : Z) (index : nat)
  | RemoveShares (drawn : Z) (index : nat).

Definition validOperation (o : Operation) : Prop :=
  match o with
  | BondUnbond _ => True
  | AddTokens tokens _ => 0 <= tokens < 1000
  | RemoveShares drawn _ => 0 <= drawn < 1000
  end.

(** The candidate an operation picks. *)
Definition operationIndex (o : Operation) : nat :=
  match o with
  | BondUnbond index | AddTokens _ index | RemoveShares _ index => index
  end.

Definition applyOperation (o : Operation) (s : StakingState)
    : option StakingState :=
  match o with
  | BondUnbond index => opBondUnbond index s
  | AddTokens tokens index => opAddTokens tokens index s
  | RemoveShares drawn index => opRemoveShares drawn index s
  end.

(** A run of operations, as the loop of TestIntegrationInvariants applies
    them one after the other. *)
Fixpoint applyOperations (ops : list Operation) (s : StakingState)
    : option StakingState :=
  match ops with
  | [] => Some s
  | o :: ops' =>
    match applyOperation o s with
    | Some s' => applyOperations ops' s'
    | None => None
    end
  end.

(** The first requirement of [assertInvariants], "total tokens conserved":
    the int64 sum UnbondedPool + BondedPool + tokens. *)
Definition totalTokens (s : StakingState) : Z :=
  let '(p, _, t) := s in
  wrap64 (wrap64 (UnbondedPool p + BondedPool p) + t).

(** The non-negativity requirements of [assertInvariants]. *)
Definition nonnegativePool (p : Pool) : Prop :=
  (0 <= BondedShares p)%Q /\ (0 <= UnbondedShares p)%Q
  /\ (0 <= bondedShareExRate p)%Q /\ (0 <= unbondedShareExRate p)%Q.

Definition nonnegativeCandidate (c : Candidate) : Prop :=
  (0 <= Assets c)%Q /\ (0 <= Liabilities c)%Q.

Definition nonnegative (s : StakingState) : Prop :=
  let '(p, c, _) := s in
  nonnegativePool p /\ Forall nonnegativeCandidate c.

(** An operation of the ledger: the operation itself followed by the
    re-verification of the pool; a failed re-verification is fatal and
    leaves no state to go on from. *)
Definition step (o : Operation) (s : StakingState) : option StakingState :=
  match applyOperation o s with
  | Some (p, c, t) => if postcondition p then Some (p, c, t) else None
  | None => None
  end.

(** The states of the ledger: the set-up states and what the operations
    lead to from them. *)
Inductive reachable : StakingState -> Prop :=
  | reachable_setup draws tokens :
      validSetup draws tokens -> reachable (randomSetup draws tokens)
  | reachable_step o s s' :
      reachable s -> validOperation o -> step o s = Some s' -> reachable s'.

(** The loop of [assertInvariants] that adds up the shares the
    candidates hold, bonded and unbonded. *)
Definition sharesHeldLoop (cs : Candidates) : Rat * Rat :=
  fold_left
    (fun (held : Rat * Rat) (candidate : Candidate) =>
       let '(bondedSharesHeld, unbondedSharesHeld) := held in
       if isBonded (Status candidate)
       then ((bondedSharesHeld + Assets candidate)%Q, unbondedSharesHeld)
       else (bondedSharesHeld, (unbondedSharesHeld + Assets candidate)%Q))
    cs (ZeroRat, ZeroRat).

(** func assertInvariants: all its requirements, for the state before
    (pA, cA, tA) and the state after (pB, cB, tB). *)
Definition assertInvariants (pA : Pool) (cA : Candidates) (tA : Z)
    (pB : Pool) (cB : Candidates) (tB : Z) : Prop :=
  (* total tokens conserved *)
  wrap64 (wrap64 (UnbondedPool pA + BondedPool pA) + tA)
  = wrap64 (wrap64 (UnbondedPool pB + BondedPool pB) + tB)
  (* nonnegative shares *)
  /\ LT (BondedShares pB) ZeroRat = false
  /\ LT (UnbondedShares pB) ZeroRat = false
  (* nonnegative ex rates *)
  /\ LT (bondedShareExRate pB) ZeroRat = false
  /\ LT (unbondedShareExRate pB) ZeroRat = false
  /\ Forall (fun candidate =>
       (* nonnegative ex rate *)
       LT (delegatorShareExRate candidate) ZeroRat = false
       (* nonnegative assets / liabilities *)
       /\ LT (Assets candidate) ZeroRat = false
       /\ LT (Liabilities candidate) ZeroRat = false) cA
  (* shares outstanding = total shares held by candidates *)
  /\ (fst (sharesHeldLoop cA) == BondedShares pB)%Q
  /\ (snd (sharesHeldLoop cA) == UnbondedShares pB)%Q.

(** ** Notions used to reason about the ledger *)

(** The shares one candidate adds to the bonded (or unbonded) total. *)
Definition heldBy (bonded : bool) (c : Candidate) : Rat :=
  if Bool.eqb (isBonded (Status c)) bonded then Assets c else ZeroRat.

Fixpoint held (bonded : bool) (cs : Candidates) : Rat :=
  match cs with
  | [] => ZeroRat
  | c :: cs' => (heldBy bonded c + held bonded cs')%Q
  end.

(** A state whose pool totals are backed by its candidates and whose
    token counts lie between 0 and [bound]. *)
Definition sound (bound : Z) (s : StakingState) : Prop :=
  let '(p, c, _) := s in
  Forall nonnegativeCandidate c
  /\ (BondedShares p == held true c)%Q
  /\ (UnbondedShares p == held false c)%Q
  /\ 0 <= BondedPool p /\ 0 <= UnbondedPool p
  /\ BondedPool p + UnbondedPool p <= bound.

(** Equalities between int64 sums: every wrap-around is a division by
    2^64 with remainder, which leaves linear arithmetic. *)
Ltac int64_eq :=
  unfold wrap64;
  change (2 ^ 64) with 18446744073709551616;
  change (2 ^ 63) with 9223372036854775808;
  Z.to_euclidean_division_equations; lia.

End Stake.

(* ===================================================================== *)
(** * Delegation and unbonding keeper (x/staking/keeper) *)
(* ===================================================================== *)

Module Keeper.
Import Stake.

(** Modelled from the spec: the error kinds of its section 7. *)
Inductive ErrorKind :=
  | DecodingError | Unauthorized | MissingSignature | InvalidSequence
  | UnknownTxType | UnknownModule | TooLarge | InternalError
  | MaxEntriesExceeded | SelfRedelegation | Overflow | InsufficientFunds.

Inductive result (A : Type) : Type :=
  | Ok (a : A)
  | Err (e : ErrorKind).
Arguments Ok {A} a.
Arguments Err {A} e.

Abbreviation Addr := string.

(** Modelled from the spec: "Delegation: {delegatorAddress,
    validatorAddress, shares}"; share amounts are the rationals of the pool
    engine. *)
Record Delegation := mkDelegation {
  delegatorAddress : Addr;
  validatorAddress : Addr;
  shares : Rat
}.

(** Modelled from the spec: one entry of an UnbondingDelegation,
    "{creationHeight, completionTime, initialBalance, balance}"; times are
    seconds. *)
Record UnbondingEntry := mkEntry {
  creationHeight : Z;
  completionTime : Z;
  initialBalance : Z;
  balance : Z
}.

(** Modelled from the spec: the ledger the keeper operations act on (the
    keeper and its store are not among the files at hand): the pool and
    validators of section 4.2, the delegations and unbonding entries keyed
    by (delegator, validator), the delegators' balances in the bond
    denomination, the block header and the parameters. *)
Record KeeperState := mkKeeper {
  pool : Pool;
  validators : gmap Addr Candidate;
  delegations : gmap (Addr * Addr) Delegation;
  unbonding : gmap (Addr * Addr) (list UnbondingEntry);
  accounts : gmap Addr Z;
  blockHeight : Z;
  blockTime : Z;
  maxEntries : nat;
  unbondingPeriod : Z
}.

Definition entriesOf (k : KeeperState) (del val : Addr)
    : list UnbondingEntry :=
  default [] (unbonding k !! (del, val)).

Definition balanceOf (k : KeeperState) (a : Addr) : Z :=
  default 0 (accounts k !! a).

Definition sharesOf (k : KeeperState) (del val : Addr) : Rat :=
  match delegations k !! (del, val) with
  | Some d => shares d
  | None => ZeroRat
  end.

(** ctx.WithBlockTime *)
Definition WithBlockTime (k : KeeperState) (t : Z) : KeeperState :=
  mkKeeper (pool k) (validators k) (delegations k) (unbonding k)
           (accounts k) (blockHeight k) t (maxEntries k) (unbondingPeriod k).

(** Modelled from the spec: the tokens a validator has bonded, its token
    value in the bonded pool (validator.BondedTokens() in the keeper
    test; the validator type is not among the files at hand). *)
Definition BondedTokens (p : Pool) (v : Candidate) : Z :=
  if isBonded (Status v) then Evaluate (bondedShareExRate p * Assets v)%Q
  else 0.

(** Modelled from the spec: the keeper's Delegate is not among the files
    at hand.  "Delegate(delegator, validator, amount): mints validator
    shares via 4.2, credits a Delegation record, debits delegator
    Account."  A validator that is not registered and a balance that does
    not cover the amount are reported as errors and change nothing. *)
Definition Delegate (k : KeeperState) (del val : Addr) (amount : Z)
    : KeeperState * result Rat :=
  match validators k !! val with
  | None => (k, Err InternalError)
  | Some v =>
    if balanceOf k del <? amount then (k, Err InsufficientFunds)
    else
      let '(p, v', issued) := candidateAddTokens (pool k) v amount in
      let d := mkDelegation del val (sharesOf k del val + issued)%Q in
      (mkKeeper p (<[val := v']> (validators k))
                (<[(del, val) := d]> (delegations k)) (unbonding k)
                (<[del := balanceOf k del - amount]> (accounts k))
                (blockHeight k) (blockTime k) (maxEntries k)
                (unbondingPeriod k),
       Ok issued)
  end.

(** Modelled from the spec: the keeper's Undelegate is not among the
    files at hand.  "Undelegate(delegator, validator, shares): burns
    validator shares via 4.2, creates or appends to an UnbondingDelegation
    entry with completionTime = now + unbondingPeriod; fails with
    MaxEntriesExceeded if the (delegator, validator) pair already holds
    the configured maximum number of pending entries."  A Delegation is
    "removed when shares reach zero".  The call returns the tokens
    unbonded and the completion time. *)
Definition Undelegate (k : KeeperState) (del val : Addr) (amount : Rat)
    : KeeperState * result (Z * Z) :=
  if (maxEntries k <=? length (entriesOf k del val))%nat then
    (k, Err MaxEntriesExceeded)
  else
    match validators k !! val, delegations k !! (del, val) with
    | Some v, Some d =>
      if GT amount (shares d) then (k, Err InsufficientFunds)
      else
        let '(p, v', tokens) := candidateRemoveShares (pool k) v amount in
        let remaining := (shares d - amount)%Q in
        let delegations' :=
          if IsZero remaining then delete (del, val) (delegations k)
          else <[(del, val) := mkDelegation del val remaining]>
                 (delegations k) in
        let completion := blockTime k + unbondingPeriod k in
        let entry := mkEntry (blockHeight k) completion tokens tokens in
        (mkKeeper p (<[val := v']> (validators k)) delegations'
                  (<[(del, val) := entriesOf k del val ++ [entry]]>
                     (unbonding k))
                  (accounts k) (blockHeight k) (blockTime k) (maxEntries k)
                  (unbondingPeriod k),
         Ok (tokens, completion))
    | None, _ => (k, Err InternalError)
    | _, None => (k, Err InsufficientFunds)
    end.

Definition matured (now : Z) (e : UnbondingEntry) : bool :=
  completionTime e <=? now.

(** Modelled from the spec: the maturation sweep for one pair
    (CompleteUnbonding in the keeper test).  It takes the entries "whose
    completionTime <= blockTime, releases tokens back to the delegator's
    account (unbonding) ..., and removes matured entries"; the record goes
    when no entry is left. *)
Definition CompleteUnbonding (k : KeeperState) (del val : Addr)
    : KeeperState :=
  let es := entriesOf k del val in
  let done := filter (fun e => matured (blockTime k) e = true) es in
  let pending := filter (fun e => matured (blockTime k) e = false) es in
  let released := foldr (fun e acc => balance e + acc) 0 done in
  mkKeeper (pool k) (validators k) (delegations k)
           (match pending with
            | [] => delete (del, val) (unbonding k)
            | _ => <[(del, val) := pending]> (unbonding k)
            end)
           (<[del := balanceOf k del + released]> (accounts k))
           (blockHeight k) (blockTime k) (maxEntries k) (unbondingPeriod k).

(** A validator that nothing has been delegated to yet: no shares, so its
    exchange rate is 1. *)
Definition freshValidator (val : Addr) (pk : string) : Candidate :=
  mkCandidate Bonded val pk ZeroRat ZeroRat.

(** A ledger holding one fresh validator and one funded delegator. *)
Definition freshLedger (del val : Addr) (funds : Z) (now period : Z)
    (maxE : nat) : KeeperState :=
  mkKeeper (mkPool 0 ZeroRat ZeroRat 0 0 0 (7 # 100)%Q)
           {[ val := freshValidator val "" ]} ∅ ∅ {[ del := funds ]}
           0 now maxE period.

End Keeper.

(* ===================================================================== *)
(** * Showing keys (client/keys show) *)
(* ===================================================================== *)

Module Keys.

(** type bechKeyOutFn: the three output functions, by name. *)
Inductive bechKeyOutFn :=
  | Bech32KeyOutput
  | Bech32ValKeyOutput
  | Bech32ConsKeyOutput.

(** The errors the command returns: one handed on from a call it makes,
    or one it builds from a message. *)
Inductive error (E : Type) : Type :=
  | Passed (e : E)
  | Message (msg : string).
Arguments Passed {E} e.
Arguments Message {E} msg.

(** func getBechKeyOut(bechPrefix string) (bechKeyOutFn, error) *)
Definition getBechKeyOut {E : Type} (bechPrefix : string)
    : bechKeyOutFn + error E :=
  if String.eqb bechPrefix "acc" then inl Bech32KeyOutput
  else if String.eqb bechPrefix "val" then inl Bech32ValKeyOutput
  else if String.eqb bechPrefix "cons" then inl Bech32ConsKeyOutput
  else inr (Message ("invalid Bech32 prefix encoding provided: "
                     ++ bechPrefix)).

Section WithKeybase.

(** The key store, the public keys and the output functions are outside
    the files at hand: [StoredInfo] is a keys.Info of the key store,
    [GetKeyInfo] its lookup, [GetPubKey] the method of that name,
    [NewPubKeyMultisigThreshold] the multisig constructor, [nilPubKey] the
    nil interface value a fresh slice holds, [KeyOutput] what an output
    function returns and [runBechKeyOut] the call of one. *)
Variables (StoredInfo PubKey E KeyOutput : Type).
Variable GetKeyInfo : string -> StoredInfo + E.
Variable GetPubKey : StoredInfo -> PubKey.
Variable NewPubKeyMultisigThreshold : Z -> list PubKey -> PubKey.
Variable nilPubKey : PubKey.

(** type multiSigKey struct { name string; key crypto.PubKey } *)
Record multiSigKey := mkMultiSigKey { name : string; key : PubKey }.

(** A keys.Info as the command holds it: one of the key store, or a
    [multiSigKey]. *)
Inductive Info :=
  | Stored (info : StoredInfo)
  | MultiSig (m : multiSigKey).

Variable runBechKeyOut : bechKeyOutFn -> Info -> KeyOutput + E.
Variable errorText : E -> string.

(** func (m multiSigKey) GetName() string, GetPubKey() crypto.PubKey *)
Definition GetName (m : multiSigKey) : string := name m.
Definition multiSigKey_GetPubKey (m : multiSigKey) : PubKey := key m.

(** The flags the command reads through viper and cobra. *)
Record Flags := mkFlags {
  FlagAddress : bool;
  FlagPublicKey : bool;
  FlagBechPrefix : string;
  flagMultiSigThreshold : Z;
  OutputFlagChanged : bool
}.

(** What the command prints: the printer it calls and its arguments. *)
Inductive Printed :=
  | printKeyAddress (info : Info) (bechKeyOut : bechKeyOutFn)
  | printPubKey (info : Info) (bechKeyOut : bechKeyOutFn)
  | printKeyInfo (info : Info) (bechKeyOut : bechKeyOutFn).

(** The loop of [runShowCmd] over the key names: [pks[i] =
    info.GetPubKey()], or the error of the first name that is not found. *)
Fixpoint pksLoop (i : nat) (rest : list string) (pks : list PubKey)
    : list PubKey + error E :=
  match rest with
  | [] => inl pks
  | keyName :: rest' =>
    match GetKeyInfo keyName with
    | inr err => inr (Passed err)
    | inl info => pksLoop (S i) rest' (<[i := GetPubKey info]> pks)
    end
  end.

(** func runShowCmd(cmd *cobra.Command, args []string) (err error): the
    error it returns, or what it printed before returning nil. *)
Definition runShowCmd (flags : Flags) (args : list string)
    : Printed + error E :=
  let found : Info + error E :=
    match args with
    | [keyName] =>
      match GetKeyInfo keyName with
      | inr err => inr (Passed err)
      | inl info => inl (Stored info)
      end
    | _ =>
      match pksLoop 0 args (replicate (length args) nilPubKey) with
      | inr err => inr err
      | inl pks =>
        let multikey :=
          NewPubKeyMultisigThreshold (flagMultiSigThreshold flags) pks in
        inl (MultiSig (mkMultiSigKey "multi" multikey))
      end
    end in
  match found with
  | inr err => inr err
  | inl info =>
    let isShowAddr := FlagAddress flags in
    let isShowPubKey := FlagPublicKey flags in
    let isOutputSet := OutputFlagChanged flags in
    if isShowAddr && isShowPubKey then
      inr (Message "cannot use both --address and --pubkey at once")
    else if isOutputSet && (isShowAddr || isShowPubKey) then
      inr (Message "cannot use --output with --address or --pubkey")
    else
      match getBechKeyOut (FlagBechPrefix flags) with
      | inr err => inr err
      | inl bechKeyOut =>
        if isShowAddr then inl (printKeyAddress info bechKeyOut)
        else if isShowPubKey then inl (printPubKey info bechKeyOut)
        else inl (printKeyInfo info bechKeyOut)
      end
  end.

(** What the REST handler writes: a status with a body, or the key output
    handed to PostProcessResponse. *)
Inductive Response :=
  | WriteHeader (status : Z) (body : string)
  | PostProcessResponse (keyOutput : KeyOutput) (indent : bool).

Definition StatusBadRequest : Z := 400.
Definition StatusNotFound : Z := 404.
Definition StatusInternalServerError : Z := 500.

(** err.Error() *)
Definition Error (err : error E) : string :=
  match err with
  | Passed e => errorText e
  | Message msg => msg
  end.

(** func GetKeyRequestHandler(indent bool) http.HandlerFunc, applied to a
    request with the path variable [name] and the query parameter [bech]
    (the empty string when the request has none). *)
Definition GetKeyRequestHandler (indent : bool) (name bech : string)
    : Response :=
  let bechPrefix := if String.eqb bech "" then "acc" else bech in
  match getBechKeyOut (E := E) bechPrefix with
  | inr err => WriteHeader StatusBadRequest (Error err)
  | inl bechKeyOut =>
    match GetKeyInfo name with
    | inr err => WriteHeader StatusNotFound (errorText err)
    | inl info =>
      match runBechKeyOut bechKeyOut (Stored info) with
      | inr err => WriteHeader StatusInternalServerError (errorText err)
      | inl keyOutput => PostProcessResponse keyOutput indent
      end
    end
  end.

End WithKeybase.

Arguments mkMultiSigKey {PubKey} name key.
Arguments Stored {StoredInfo PubKey} info.
Arguments MultiSig {StoredInfo PubKey} m.
Arguments printKeyAddress {StoredInfo PubKey} info bechKeyOut.
Arguments printPubKey {StoredInfo PubKey} info bechKeyOut.
Arguments printKeyInfo {StoredInfo PubKey} info bechKeyOut.
Arguments WriteHeader {KeyOutput} status body.
Arguments PostProcessResponse {KeyOutput} keyOutput indent.
Arguments pksLoop {StoredInfo PubKey E} GetKeyInfo GetPubKey i rest pks.
Arguments runShowCmd {StoredInfo PubKey E} GetKeyInfo GetPubKey
  NewPubKeyMultisigThreshold nilPubKey flags args.
Arguments GetKeyRequestHandler {StoredInfo PubKey E KeyOutput} GetKeyInfo
  runBechKeyOut errorText indent name bech.

End Keys.

(* ===================================================================== *)
(** * Facts about decimal coins *)
(* ===================================================================== *)

Module DecCoinsFacts.
Import DecCoins.

(** ** Order on denominations *)

Lemma compare_refl (s : string) : String.compare s s = Eq.
Proof.
  pose proof (String.compare_antisym s s) as E.
  destruct (String.compare s s); simpl in E; congruence.
Qed.

Lemma compare_lt_trans (x y z : string) :
  String.compare x y = Lt -> String.compare y z = Lt ->
  String.compare x z = Lt.
Proof.
  intros Hxy Hyz.
  exact (StrictOrder_Transitive (R := String_as_OT.lt) x y z Hxy Hyz).
Qed.

Lemma compare_gt_lt (x y : string) :
  String.compare x y = Gt -> String.compare y x = Lt.
Proof.
  intros E. rewrite String.compare_antisym, E. reflexivity.
Qed.

Lemma compare_lt_eqb (x y : string) :
  String.compare x y = Lt -> String.eqb y x = false.
Proof.
  intros E. apply String.eqb_neq. intros ->.
  rewrite compare_refl in E. discriminate.
Qed.

Section WithDec.
Context {Dec : Type} `{SdkDec Dec}.

Implicit Types (a b l : DecCoins Dec) (c : DecCoin Dec) (d : string).

(** ** The loop computes the structural merge *)

Lemma merge_nil_l b : merge [] b = b.
Proof. destruct b; reflexivity. Qed.

Lemma merge_nil_r a : merge a [] = a.
Proof. destruct a; reflexivity. Qed.

Lemma PlusLoop_merge (fuel : nat) :
  forall a b (sum : list (DecCoin Dec)) (indexA indexB : nat),
    (length a - indexA + (length b - indexB) < fuel)%nat ->
    (indexA <= length a)%nat -> (indexB <= length b)%nat ->
    PlusLoop fuel a b sum indexA indexB
    = Some (sum ++ merge (drop indexA a) (drop indexB b)).
Proof.
  induction fuel as [|fuel IH]; intros a b sum iA iB Hf HA HB; [lia|].
  cbn [PlusLoop].
  destruct (Nat.eqb_spec iA (length a)) as [EA|NA].
  { subst iA. rewrite drop_all, merge_nil_l.
    destruct (Nat.eqb_spec iB (length b)) as [EB|NB]; [|reflexivity].
    subst iB. rewrite drop_all, app_nil_r. reflexivity. }
  destruct (Nat.eqb_spec iB (length b)) as [EB|NB].
  { subst iB. rewrite (drop_all b), merge_nil_r. reflexivity. }
  destruct (lookup_lt_is_Some_2 a iA) as [ca Ha]; [lia|].
  destruct (lookup_lt_is_Some_2 b iB) as [cb Hb]; [lia|].
  rewrite Ha, Hb, (drop_S _ _ _ Ha), (drop_S _ _ _ Hb).
  cbn [merge].
  destruct (String.compare (Denom ca) (Denom cb)) eqn:E.
  - destruct (Dec_IsZero (Dec_Add (Amount ca) (Amount cb))).
    + rewrite IH by lia. reflexivity.
    + rewrite IH by lia. rewrite <- app_assoc. reflexivity.
  - rewrite IH by lia. rewrite <- app_assoc, (drop_S _ _ _ Hb). reflexivity.
  - rewrite IH by lia. rewrite <- app_assoc, (drop_S _ _ _ Ha). reflexivity.
Qed.

Lemma Plus_merge a b : Plus a b = Some (merge a b).
Proof.
  unfold Plus. rewrite PlusLoop_merge by lia. reflexivity.
Qed.

(** ** The merge keeps lists canonical *)

Lemma DecCoin_Plus_same_denom ca cb :
  String.compare (Denom ca) (Denom cb) = Eq ->
  DecCoin_Plus ca cb = mkDecCoin (Denom ca) (Dec_Add (Amount ca) (Amount cb)).
Proof.
  intros E. apply String.compare_eq_iff in E.
  unfold DecCoin_Plus. rewrite E, String.eqb_refl. reflexivity.
Qed.

Lemma merge_Forall_denom (P : string -> Prop) a :
  forall b,
    Forall (fun c => P (Denom c)) a -> Forall (fun c => P (Denom c)) b ->
    Forall (fun c => P (Denom c)) (merge a b).
Proof.
  induction a as [|ca a IHa]; intros b Ha Hb; [rewrite merge_nil_l; exact Hb|].
  induction b as [|cb b IHb]; [exact Ha|].
  inversion Ha as [|? ? Pa Ha']; subst. inversion Hb as [|? ? Pb Hb']; subst.
  cbn [merge].
  destruct (String.compare (Denom ca) (Denom cb)) eqn:E.
  - destruct (Dec_IsZero _); [auto|].
    constructor; [|auto]. rewrite (DecCoin_Plus_same_denom _ _ E). exact Pa.
  - constructor; auto.
  - constructor; [exact Pb|]. apply IHb. exact Hb'.
Qed.

Lemma sorted_head_lt c l : denomSorted (c :: l) -> Forall (denomLt c) l.
Proof. intros Hs. inversion Hs; assumption. Qed.

Lemma sorted_tail c l : denomSorted (c :: l) -> denomSorted l.
Proof. intros Hs. inversion Hs; assumption. Qed.

Lemma Forall_lt_trans d c l :
  String.compare d (Denom c) = Lt -> Forall (denomLt c) l ->
  Forall (fun c' => String.compare d (Denom c') = Lt) l.
Proof.
  intros Hd Hl. eapply Forall_impl; [exact Hl|].
  intros c' Hc. eapply compare_lt_trans; [exact Hd|exact Hc].
Qed.

Lemma merge_sorted a :
  forall b, denomSorted a -> denomSorted b -> denomSorted (merge a b).
Proof.
  induction a as [|ca a IHa]; intros b Ha Hb; [rewrite merge_nil_l; exact Hb|].
  induction b as [|cb b IHb]; [exact Ha|].
  pose proof (sorted_head_lt _ _ Ha) as La.
  pose proof (sorted_head_lt _ _ Hb) as Lb.
  pose proof (sorted_tail _ _ Ha) as Sa.
  pose proof (sorted_tail _ _ Hb) as Sb.
  cbn [merge].
  destruct (String.compare (Denom ca) (Denom cb)) eqn:E.
  - destruct (Dec_IsZero _); [apply IHa; assumption|].
    constructor; [apply IHa; assumption|].
    rewrite (DecCoin_Plus_same_denom _ _ E). unfold denomLt. cbn [Denom].
    apply (merge_Forall_denom (fun s => String.compare (Denom ca) s = Lt)).
    + exact La.
    + apply String.compare_eq_iff in E. rewrite E. exact Lb.
  - constructor; [apply IHa; assumption|].
    apply (merge_Forall_denom (fun s => String.compare (Denom ca) s = Lt)).
    + exact La.
    + constructor; [exact E|]. eapply Forall_lt_trans; eauto.
  - apply compare_gt_lt in E.
    constructor; [apply IHb; exact Sb|].
    apply (merge_Forall_denom (fun s => String.compare (Denom cb) s = Lt)
             (ca :: a) b).
    + constructor; [exact E|]. eapply Forall_lt_trans; eauto.
    + exact Lb.
Qed.

Lemma merge_noZeroAmount a :
  forall b, noZeroAmount a -> noZeroAmount b -> noZeroAmount (merge a b).
Proof.
  unfold noZeroAmount.
  induction a as [|ca a IHa]; intros b Ha Hb; [rewrite merge_nil_l; exact Hb|].
  induction b as [|cb b IHb]; [exact Ha|].
  inversion Ha as [|? ? Pa Ha']; subst. inversion Hb as [|? ? Pb Hb']; subst.
  cbn [merge].
  destruct (String.compare (Denom ca) (Denom cb)) eqn:E.
  - destruct (Dec_IsZero (Dec_Add (Amount ca) (Amount cb))) eqn:Z; [auto|].
    constructor; [|auto]. rewrite (DecCoin_Plus_same_denom _ _ E). exact Z.
  - constructor; auto.
  - constructor; [exact Pb|]. apply IHb. exact Hb'.
Qed.

(** ** What the merge holds at each denomination *)

Lemma amountOf_below d l :
  Forall (fun c => String.compare d (Denom c) = Lt) l -> amountOf d l = None.
Proof.
  induction 1 as [|c l Hc _ IH]; [reflexivity|].
  cbn [amountOf]. rewrite (compare_lt_eqb _ _ Hc). exact IH.
Qed.

Lemma amountOf_merge d a :
  forall b, denomSorted a -> denomSorted b ->
    amountOf d (merge a b) = summedEntry (amountOf d a) (amountOf d b).
Proof.
  induction a as [|ca a IHa]; intros b Ha Hb.
  { rewrite merge_nil_l. cbn. destruct (amountOf d b); reflexivity. }
  induction b as [|cb b IHb].
  { rewrite merge_nil_r. cbn [amountOf summedEntry].
    destruct (if String.eqb (Denom ca) d then _ else _); reflexivity. }
  pose proof (sorted_head_lt _ _ Ha) as La.
  pose proof (sorted_head_lt _ _ Hb) as Lb.
  pose proof (sorted_tail _ _ Ha) as Sa.
  pose proof (sorted_tail _ _ Hb) as Sb.
  cbn [merge].
  destruct (String.compare (Denom ca) (Denom cb)) eqn:E.
  - (* same denomination *)
    pose proof E as E'. apply String.compare_eq_iff in E'.
    assert (Hrest : String.eqb (Denom ca) d = true ->
                    amountOf d (merge a b) = None).
    { intros Hd. apply String.eqb_eq in Hd. subst d.
      rewrite IHa by assumption.
      rewrite (amountOf_below (Denom ca) a) by exact La.
      rewrite (amountOf_below (Denom ca) b) by (rewrite E'; exact Lb).
      reflexivity. }
    cbn [amountOf]. rewrite <- E'.
    destruct (Dec_IsZero (Dec_Add (Amount ca) (Amount cb))) eqn:Z.
    + destruct (String.eqb (Denom ca) d) eqn:Hd.
      * rewrite Hrest by reflexivity. cbn. rewrite Z. reflexivity.
      * apply IHa; assumption.
    + cbn [amountOf]. rewrite (DecCoin_Plus_same_denom _ _ E). cbn [Denom Amount].
      destruct (String.eqb (Denom ca) d) eqn:Hd.
      * cbn. rewrite Z. reflexivity.
      * apply IHa; assumption.
  - (* head of [a] first *)
    cbn [amountOf].
    destruct (String.eqb (Denom ca) d) eqn:Hd.
    + apply String.eqb_eq in Hd. subst d.
      rewrite (compare_lt_eqb _ _ E).
      rewrite (amountOf_below (Denom ca) b)
        by (eapply Forall_lt_trans; eauto).
      reflexivity.
    + rewrite IHa by assumption. cbn [amountOf]. reflexivity.
  - (* head of [b] first *)
    apply compare_gt_lt in E.
    cbn [amountOf].
    destruct (String.eqb (Denom cb) d) eqn:Hd.
    + apply String.eqb_eq in Hd. subst d.
      rewrite (compare_lt_eqb _ _ E).
      rewrite (amountOf_below (Denom cb) a)
        by (eapply Forall_lt_trans; eauto).
      reflexivity.
    + exact (IHb Sb).
Qed.

(** ** The index loop of [Mul] *)


(** C10.  [DecCoin.Plus] on two coins of different denominations returns
    the receiver unchanged, leaving the argument's amount out; on two coins
    of the same denomination it returns that denomination with the two
    amounts added. *)
Theorem DecCoin_Plus_denoms (coin coinB : DecCoin Dec) :
  (Denom coin <> Denom coinB -> DecCoin_Plus coin coinB = coin)
  /\ (Denom coin = Denom coinB ->
      DecCoin_Plus coin coinB
      = mkDecCoin (Denom coin) (Dec_Add (Amount coin) (Amount coinB))).
Proof.
  unfold DecCoin_Plus. split; intros Hd.
  - apply String.eqb_neq in Hd. rewrite Hd. reflexivity.
  - apply String.eqb_eq in Hd. rewrite Hd. reflexivity.
Qed.

(** C3.  On two canonical lists (sorted by denomination, denominations
    unique, no zero amount) [DecCoins.Plus] returns the merge by
    denomination: the result is sorted with unique denominations; at each
    denomination it holds the entry of the list that has one, the sum of
    the two amounts when both have one, and no entry when that sum is
    zero; so no entry of the result has a zero amount. *)
Theorem Plus_canonical (a b : DecCoins Dec) :
  canonical a -> canonical b ->
  exists sum,
    Plus a b = Some sum
    /\ denomSorted sum
    /\ (forall d, amountOf d sum = summedEntry (amountOf d a) (amountOf d b))
    /\ noZeroAmount sum.
Proof.
  intros [Sa Za] [Sb Zb]. exists (merge a b).
  split; [apply Plus_merge|].
  split; [apply merge_sorted; assumption|].
  split; [intros d; apply amountOf_merge; assumption|].
  apply merge_noZeroAmount; assumption.
Qed.


(** ** Further facts about [Plus] *)

Lemma merge_length a :
  forall b, (length (merge a b) <= length a + length b)%nat.
Proof.
  induction a as [|ca a IHa]; intros b; [rewrite merge_nil_l; cbn; lia|].
  induction b as [|cb b IHb]; [cbn; lia|].
  cbn [merge].
  destruct (String.compare (Denom ca) (Denom cb)).
  - destruct (Dec_IsZero _); cbn [length]; pose proof (IHa b); lia.
  - cbn [length]. pose proof (IHa (cb :: b)). cbn [length] in *. lia.
  - cbn [length] in *.
    change (S (length (merge (ca :: a) b)) <= S (length a + S (length b)))%nat.
    lia.
Qed.

(** X1.  [DecCoins.Plus] returns for any two lists, canonical or not: the
    loop never reads outside a slice.  The result is no longer than the
    two lists together, each of its denominations is one of theirs, and
    when one list is empty it is the other list as it is. *)
Theorem Plus_any_lists (a b : DecCoins Dec) :
  (exists sum,
     Plus a b = Some sum
     /\ (length sum <= length a + length b)%nat
     /\ Forall (fun c => Denom c ∈ map Denom a ++ map Denom b) sum)
  /\ Plus [] b = Some b
  /\ Plus a [] = Some a.
Proof.
  split; [|split].
  - exists (merge a b). split; [apply Plus_merge|].
    split; [apply merge_length|].
    apply (merge_Forall_denom (fun d => d ∈ map Denom a ++ map Denom b)).
    + apply Forall_forall. intros c Hc. apply elem_of_app. left.
      apply list_elem_of_fmap. exists c. split; [reflexivity|exact Hc].
    + apply Forall_forall. intros c Hc. apply elem_of_app. right.
      apply list_elem_of_fmap. exists c. split; [reflexivity|exact Hc].
  - rewrite Plus_merge, merge_nil_l. reflexivity.
  - rewrite Plus_merge, merge_nil_r. reflexivity.
Qed.

Lemma merge_comm a :
  (forall x y : Dec, Dec_Add x y = Dec_Add y x) ->
  forall b, merge a b = merge b a.
Proof.
  intros Hadd.
  induction a as [|ca a IHa]; intros b;
    [rewrite merge_nil_l, merge_nil_r; reflexivity|].
  induction b as [|cb b IHb]; [reflexivity|].
  cbn [merge]. rewrite (String.compare_antisym (Denom ca) (Denom cb)).
  destruct (String.compare (Denom cb) (Denom ca)) eqn:E; cbn [CompOpp].
  - rewrite (Hadd (Amount cb) (Amount ca)).
    destruct (Dec_IsZero _); [apply IHa|].
    f_equal; [|apply IHa].
    unfold DecCoin_Plus. apply String.compare_eq_iff in E.
    rewrite E, String.eqb_refl. cbn. rewrite Hadd. reflexivity.
  - f_equal. exact IHb.
  - f_equal. exact (IHa (cb :: b)).
Qed.

(** X2.  When the addition of amounts is commutative, [DecCoins.Plus]
    gives the same list whichever of the two lists is the receiver. *)
Theorem Plus_comm (a b : DecCoins Dec) :
  (forall x y : Dec, Dec_Add x y = Dec_Add y x) ->
  Plus a b = Plus b a.
Proof.
  intros Hadd. rewrite !Plus_merge. f_equal. apply merge_comm. exact Hadd.
Qed.

(** X3.  Two lists that carry the same denominations in the same order
    and whose amounts add up to zero entry by entry cancel: [Plus] returns
    the empty list. *)
Theorem Plus_cancel (a b : DecCoins Dec) :
  Forall2 (fun ca cb =>
             Denom ca = Denom cb
             /\ Dec_IsZero (Dec_Add (Amount ca) (Amount cb)) = true) a b ->
  Plus a b = Some [].
Proof.
  intros Hab. rewrite Plus_merge. f_equal.
  induction Hab as [|ca cb a b [Hd Hz] _ IH]; [reflexivity|].
  cbn [merge]. rewrite Hd, compare_refl, Hz. exact IH.
Qed.

End WithDec.

Lemma Plus_comm_witness :
  Plus [mkDecCoin "atom" 1; mkDecCoin "photon" 2]
       [mkDecCoin "atom" 4; mkDecCoin "stake" 5]
  = Plus [mkDecCoin "atom" 4; mkDecCoin "stake" 5]
         [mkDecCoin "atom" 1; mkDecCoin "photon" 2].
Proof.
  apply (Plus_comm [mkDecCoin "atom" 1; mkDecCoin "photon" 2]
                   [mkDecCoin "atom" 4; mkDecCoin "stake" 5]).
  intros x y. cbn. lia.
Defined.

Lemma Plus_cancel_witness :
  Plus [mkDecCoin "atom" 1; mkDecCoin "photon" 2]
       [mkDecCoin "atom" (-1); mkDecCoin "photon" (-2)] = Some [].
Proof.
  apply (Plus_cancel [mkDecCoin "atom" 1; mkDecCoin "photon" 2]
                     [mkDecCoin "atom" (-1); mkDecCoin "photon" (-2)]).
  repeat constructor.
Defined.

Lemma DecCoin_Plus_denoms_witness :
  DecCoin_Plus (mkDecCoin "atom" 1) (mkDecCoin "photon" 2) = mkDecCoin "atom" 1
  /\ DecCoin_Plus (mkDecCoin "atom" 1) (mkDecCoin "atom" 2)
     = mkDecCoin "atom" (Dec_Add 1 2).
Proof.
  split.
  - apply (DecCoin_Plus_denoms (mkDecCoin "atom" 1) (mkDecCoin "photon" 2)).
    discriminate.
  - apply (DecCoin_Plus_denoms (mkDecCoin "atom" 1) (mkDecCoin "atom" 2)).
    reflexivity.
Defined.

Lemma Plus_canonical_witness :
  exists sum,
    Plus [mkDecCoin "atom" 1; mkDecCoin "photon" 2]
         [mkDecCoin "atom" (-1); mkDecCoin "stake" 5] = Some sum
    /\ denomSorted sum
    /\ (forall d, amountOf d sum
          = summedEntry
              (amountOf d [mkDecCoin "atom" 1; mkDecCoin "photon" 2])
              (amountOf d [mkDecCoin "atom" (-1); mkDecCoin "stake" 5]))
    /\ noZeroAmount sum.
Proof.
  apply (Plus_canonical [mkDecCoin "atom" 1; mkDecCoin "photon" 2]
                        [mkDecCoin "atom" (-1); mkDecCoin "stake" 5]).
  - split.
    + repeat constructor.
    + repeat constructor.
  - split.
    + repeat constructor.
    + repeat constructor.
Defined.

End DecCoinsFacts.

(* ===================================================================== *)
(** * Facts about the chain state *)
(* ===================================================================== *)

Module ChainStateFacts.
Import ChainState.

Lemma SetChainID_chainID s id : chainID (SetChainID s id) = id.
Proof. reflexivity. Qed.

(** C9, as stated, fails for the empty identifier: after [SetChainID]
    with the empty string [GetChainID] still panics. *)
Lemma GetChainID_after_SetChainID_empty :
  GetChainID (SetChainID (NewState 0) "")
  = Panics "Expected to have set SetChainID"
  /\ GetChainID (SetChainID (NewState 0) "") <> Returns "".
Proof. split; [reflexivity|discriminate]. Qed.

(** C9, amended.  [GetChainID] panics whenever the stored chain identifier
    is the empty string, as it is in a new state; after [SetChainID] with
    a non-empty identifier it returns exactly that identifier. *)
Theorem GetChainID_spec (s : State) (id : string) (cli : N) :
  (chainID s = "" ->
   GetChainID s = Panics "Expected to have set SetChainID")
  /\ GetChainID (NewState cli) = Panics "Expected to have set SetChainID"
  /\ (id <> "" -> GetChainID (SetChainID s id) = Returns id).
Proof.
  unfold GetChainID. repeat split.
  - intros ->. reflexivity.
  - intros Hid. rewrite SetChainID_chainID.
    apply String.eqb_neq in Hid. rewrite Hid. reflexivity.
Qed.

Lemma GetChainID_spec_witness :
  GetChainID (NewState 7) = Panics "Expected to have set SetChainID"
  /\ GetChainID (SetChainID (NewState 7) "test_chain_id")
     = Returns "test_chain_id".
Proof.
  destruct (GetChainID_spec (NewState 7) "test_chain_id" 7) as (H1 & _ & H3).
  split.
  - apply H1. reflexivity.
  - apply H3. discriminate.
Defined.

(** ** The check-account cache *)

Lemma addrKey_inj (a b : list Byte.byte) : addrKey a = addrKey b -> a = b.
Proof.
  unfold addrKey. intros E.
  rewrite <- (list_byte_of_string_of_list_byte a),
          <- (list_byte_of_string_of_list_byte b), E.
  reflexivity.
Qed.

(** X4.  A check account written with [SetCheckAccount] is what
    [GetCheckAccount] reads back for that address, whatever the defaults;
    the accounts of all other addresses and the chain identifier are as
    before. *)
Theorem SetCheckAccount_GetCheckAccount (s : State)
    (addr addr' : list Byte.byte) (seq bal ds db : Z) :
  GetCheckAccount (SetCheckAccount s addr seq bal) addr ds db = (seq, bal)
  /\ (addr' <> addr ->
      GetCheckAccount (SetCheckAccount s addr seq bal) addr' ds db
      = GetCheckAccount s addr' ds db)
  /\ GetChainID (SetCheckAccount s addr seq bal) = GetChainID s.
Proof.
  unfold GetCheckAccount, SetCheckAccount. cbn [checkCache].
  split; [|split].
  - rewrite lookup_insert_eq. reflexivity.
  - intros Hne. rewrite lookup_insert_ne; [reflexivity|].
    intros E. apply Hne. symmetry. apply addrKey_inj. exact E.
  - reflexivity.
Qed.

(** X5.  In a new state, and after [ResetCacheState] whatever was written
    before, [GetCheckAccount] gives the defaults for every address; the
    reset keeps the chain identifier. *)
Theorem ResetCacheState_defaults (s : State) (cli : N)
    (addr addr' : list Byte.byte) (seq bal ds db : Z) :
  GetCheckAccount (NewState cli) addr ds db = (ds, db)
  /\ GetCheckAccount (ResetCacheState (SetCheckAccount s addr' seq bal))
                     addr ds db = (ds, db)
  /\ GetChainID (ResetCacheState s) = GetChainID s.
Proof.
  unfold GetCheckAccount. cbn [checkCache ResetCacheState NewState].
  rewrite !lookup_empty. repeat split.
Qed.

(** X6.  Of two writes to one address the later one stays, and writes to
    two different addresses give the same state in either order. *)
Theorem SetCheckAccount_writes (s : State) (a1 a2 : list Byte.byte)
    (seq1 bal1 seq2 bal2 : Z) :
  SetCheckAccount (SetCheckAccount s a1 seq1 bal1) a1 seq2 bal2
  = SetCheckAccount s a1 seq2 bal2
  /\ (a1 <> a2 ->
      SetCheckAccount (SetCheckAccount s a1 seq1 bal1) a2 seq2 bal2
      = SetCheckAccount (SetCheckAccount s a2 seq2 bal2) a1 seq1 bal1).
Proof.
  unfold SetCheckAccount. cbn. split.
  - rewrite insert_insert_eq. reflexivity.
  - intros Hne. f_equal. apply insert_insert_ne.
    intros E. apply Hne. symmetry. apply addrKey_inj. exact E.
Qed.

Lemma SetCheckAccount_GetCheckAccount_witness :
  let s := SetCheckAccount (NewState 0) [Byte.x61] 3 50 in
  GetCheckAccount s [Byte.x61] 0 0 = (3, 50)
  /\ GetCheckAccount s [Byte.x62] 1 7 = (1, 7).
Proof.
  cbv zeta.
  destruct (SetCheckAccount_GetCheckAccount (NewState 0) [Byte.x61]
              [Byte.x62] 3 50 1 7) as (_ & H2 & _).
  split.
  - apply (SetCheckAccount_GetCheckAccount (NewState 0) [Byte.x61]
             [Byte.x62] 3 50 0 0).
  - rewrite H2 by discriminate. reflexivity.
Defined.

Lemma SetCheckAccount_writes_witness :
  SetCheckAccount (SetCheckAccount (NewState 0) [Byte.x61] 1 10)
                  [Byte.x62] 2 20
  = SetCheckAccount (SetCheckAccount (NewState 0) [Byte.x62] 2 20)
                    [Byte.x61] 1 10.
Proof.
  apply (SetCheckAccount_writes (NewState 0) [Byte.x61] [Byte.x62] 1 10 2 20).
  discriminate.
Defined.

End ChainStateFacts.

(* ===================================================================== *)
(** * Facts about the slashing hooks *)
(* ===================================================================== *)

Module SlashingFacts.
Import Slashing.

(** C8.  [OnValidatorBonded] leaves an existing signing-info record of
    the address as it is and, when there is none, stores one with the
    current block height as start height, index offset 0, jailed-until at
    the Unix epoch and signed-blocks counter 0; in both cases it stores,
    for the address and the current height, a slashing period with that
    start height, end height 0 and nothing slashed so far.  Nothing else
    in the store changes. *)
Theorem OnValidatorBonded_records (ctx : Context) (address : ConsAddress) :
  let ctx' := OnValidatorBonded ctx address in
  getValidatorSigningInfo ctx' address
  = Some (match getValidatorSigningInfo ctx address with
          | Some info => info
          | None => mkSigningInfo (BlockHeight ctx) 0 (Unix 0 0) 0
          end)
  /\ slashingPeriods ctx' !! (address, BlockHeight ctx)
     = Some (mkSlashingPeriod address (BlockHeight ctx) 0 ZeroDec)
  /\ BlockHeight ctx' = BlockHeight ctx
  /\ (forall other, other <> address ->
        getValidatorSigningInfo ctx' other
        = getValidatorSigningInfo ctx other)
  /\ (forall key, key <> (address, BlockHeight ctx) ->
        slashingPeriods ctx' !! key = slashingPeriods ctx !! key).
Proof.
  cbn zeta. unfold OnValidatorBonded, onValidatorBonded,
    getValidatorSigningInfo.
  destruct (signingInfos ctx !! address) as [info|] eqn:E; cbn.
  - rewrite lookup_insert_eq.
    repeat split; try assumption.
    intros key Hk. rewrite lookup_insert_ne by congruence. reflexivity.
  - rewrite !lookup_insert_eq.
    repeat split.
    + intros other Ho. rewrite lookup_insert_ne by congruence. reflexivity.
    + intros key Hk. rewrite lookup_insert_ne by congruence. reflexivity.
Qed.

Lemma OnValidatorBonded_records_witness :
  let ctx := mkContext 42 ∅ ∅ in
  let address := [1; 2; 3]%N in
  let ctx' := OnValidatorBonded ctx address in
  getValidatorSigningInfo ctx' address
  = Some (mkSigningInfo 42 0 (Unix 0 0) 0)
  /\ slashingPeriods ctx' !! (address, 42)
     = Some (mkSlashingPeriod address 42 0 ZeroDec)
  /\ getValidatorSigningInfo ctx' [9]%N = None
  /\ slashingPeriods ctx' !! (address, 41) = None.
Proof.
  cbv zeta.
  destruct (OnValidatorBonded_records (mkContext 42 ∅ ∅) [1; 2; 3]%N)
    as (H1 & H2 & _ & H4 & H5).
  split; [exact H1|]. split; [exact H2|]. split.
  - rewrite H4 by discriminate. reflexivity.
  - rewrite H5 by discriminate. reflexivity.
Defined.

(** ** Bonding again, and beginning to unbond *)

(** X7.  When a validator that has been bonded is bonded again, its
    signing info stays the one it had (the start height of the first
    bonding is kept), a slashing period is opened at the new height, and
    the period opened at an earlier height is still stored; bonded twice
    at one height, the second call changes nothing. *)
Theorem OnValidatorBonded_again (ctx : Context) (address : ConsAddress)
    (height : Z) :
  let ctx1 := OnValidatorBonded ctx address in
  let ctx2 := OnValidatorBonded (WithBlockHeight ctx1 height) address in
  getValidatorSigningInfo ctx2 address = getValidatorSigningInfo ctx1 address
  /\ slashingPeriods ctx2 !! (address, height)
     = Some (mkSlashingPeriod address height 0 ZeroDec)
  /\ (height <> BlockHeight ctx ->
      slashingPeriods ctx2 !! (address, BlockHeight ctx)
      = Some (mkSlashingPeriod address (BlockHeight ctx) 0 ZeroDec))
  /\ OnValidatorBonded ctx1 address = ctx1.
Proof.
  cbn zeta. unfold OnValidatorBonded, onValidatorBonded,
    getValidatorSigningInfo, WithBlockHeight.
  assert (Hlast : forall c : Context,
    addOrUpdateValidatorSlashingPeriod
      (addOrUpdateValidatorSlashingPeriod c
         (mkSlashingPeriod address (BlockHeight ctx) 0 ZeroDec))
      (mkSlashingPeriod address (BlockHeight ctx) 0 ZeroDec)
    = addOrUpdateValidatorSlashingPeriod c
        (mkSlashingPeriod address (BlockHeight ctx) 0 ZeroDec)).
  { intros c. unfold addOrUpdateValidatorSlashingPeriod. cbn.
    rewrite insert_insert_eq. reflexivity. }
  destruct (signingInfos ctx !! address) as [info|] eqn:E; cbn;
    rewrite ?lookup_insert_eq, ?E; cbn; rewrite ?lookup_insert_eq;
    (split; [first [reflexivity|exact E]|]); (split; [reflexivity|]);
    (split; [|apply Hlast]);
    intros Hne; rewrite lookup_insert_ne by congruence;
    apply lookup_insert_eq.
Qed.

(** X8.  [OnValidatorBeginUnbonding] stores the slashing period its
    lookup returned with the end height set to the current block height,
    under that period's own address and start height, which it keeps
    together with the amount slashed so far; the signing infos, the block
    height and every other stored period are as before. *)
Theorem OnValidatorBeginUnbonding_closes
    (lookup : Context -> ConsAddress -> Z -> ValidatorSlashingPeriod)
    (ctx : Context) (address : ConsAddress) :
  let period := lookup ctx address (BlockHeight ctx) in
  let ctx' := OnValidatorBeginUnbonding lookup ctx address in
  slashingPeriods ctx' !! (ValidatorAddr period, StartHeight period)
  = Some (mkSlashingPeriod (ValidatorAddr period) (StartHeight period)
                           (BlockHeight ctx) (SlashedSoFar period))
  /\ signingInfos ctx' = signingInfos ctx
  /\ BlockHeight ctx' = BlockHeight ctx
  /\ (forall key, key <> (ValidatorAddr period, StartHeight period) ->
        slashingPeriods ctx' !! key = slashingPeriods ctx !! key).
Proof.
  cbn zeta. unfold OnValidatorBeginUnbonding, onValidatorBeginUnbonding,
    addOrUpdateValidatorSlashingPeriod.
  cbn [slashingPeriods signingInfos BlockHeight ValidatorAddr StartHeight].
  split; [apply lookup_insert_eq|]. repeat split.
  intros key Hk. apply lookup_insert_ne. congruence.
Qed.

Lemma OnValidatorBeginUnbonding_closes_witness :
  let address := [1; 2; 3]%N in
  let lookup := fun (c : Context) (a : ConsAddress) (_ : Z) =>
    default (mkSlashingPeriod a 0 0 ZeroDec) (slashingPeriods c !! (a, 42)) in
  let ctx1 := WithBlockHeight (OnValidatorBonded (mkContext 42 ∅ ∅) address)
                              50 in
  let ctx2 := OnValidatorBeginUnbonding lookup ctx1 address in
  slashingPeriods ctx2 !! (address, 42)
  = Some (mkSlashingPeriod address 42 50 ZeroDec)
  /\ slashingPeriods ctx2 !! (address, 50) = None.
Proof.
  cbv zeta.
  destruct (OnValidatorBeginUnbonding_closes
              (fun (c : Context) (a : ConsAddress) (_ : Z) =>
                 default (mkSlashingPeriod a 0 0 ZeroDec)
                         (slashingPeriods c !! (a, 42)))
              (WithBlockHeight
                 (OnValidatorBonded (mkContext 42 ∅ ∅) [1; 2; 3]%N) 50)
              [1; 2; 3]%N) as (H1 & _ & _ & H4).
  split.
  - exact H1.
  - rewrite H4 by (vm_compute; discriminate). reflexivity.
Defined.

Lemma OnValidatorBonded_again_witness :
  let address := [1; 2; 3]%N in
  let ctx2 := OnValidatorBonded
                (WithBlockHeight (OnValidatorBonded (mkContext 42 ∅ ∅) address)
                                 50) address in
  getValidatorSigningInfo ctx2 address
  = Some (mkSigningInfo 42 0 (Unix 0 0) 0)
  /\ slashingPeriods ctx2 !! (address, 42)
     = Some (mkSlashingPeriod address 42 0 ZeroDec)
  /\ slashingPeriods ctx2 !! (address, 50)
     = Some (mkSlashingPeriod address 50 0 ZeroDec).
Proof.
  cbv zeta.
  destruct (OnValidatorBonded_again (mkContext 42 ∅ ∅) [1; 2; 3]%N 50)
    as (H1 & H2 & H3 & _).
  split; [rewrite H1; reflexivity|].
  split; [apply H3; discriminate|exact H2].
Defined.

End SlashingFacts.

(* ===================================================================== *)
(** * Facts about the pool and candidate ledger *)
(* ===================================================================== *)

Module StakeFacts.
Import Stake.

(** ** int64 arithmetic *)

Lemma wrap64_small (a : Z) : - 2 ^ 63 <= a < 2 ^ 63 -> wrap64 a = a.
Proof.
  intros Ha. unfold wrap64. rewrite Z.mod_small; lia.
Qed.

(** ** Conservation, operation by operation *)

Lemma opBondUnbond_conserves index s s' :
  opBondUnbond index s = Some s' -> totalTokens s' = totalTokens s.
Proof.
  destruct s as [[p c] t]. unfold opBondUnbond.
  destruct (c !! index) as [cand|]; [|discriminate].
  destruct (isBonded (Status cand)); intros [= <-]; cbn; int64_eq.
Qed.

Lemma opAddTokens_conserves tokens index s s' :
  opAddTokens tokens index s = Some s' -> totalTokens s' = totalTokens s.
Proof.
  destruct s as [[p c] t]. unfold opAddTokens, candidateAddTokens.
  destruct (c !! index) as [cand|]; [|discriminate].
  destruct (isBonded (Status cand)); intros [= <-]; cbn; int64_eq.
Qed.

Lemma opRemoveShares_conserves drawn index s s' :
  opRemoveShares drawn index s = Some s' -> totalTokens s' = totalTokens s.
Proof.
  destruct s as [[p c] t]. unfold opRemoveShares, candidateRemoveShares.
  destruct (c !! index) as [cand|]; [|discriminate].
  destruct (isBonded (Status cand)); intros [= <-]; cbn; int64_eq.
Qed.

Lemma applyOperation_conserves o s s' :
  applyOperation o s = Some s' -> totalTokens s' = totalTokens s.
Proof.
  destruct o; cbn [applyOperation].
  - apply opBondUnbond_conserves.
  - apply opAddTokens_conserves.
  - apply opRemoveShares_conserves.
Qed.

Lemma applyOperations_conserves ops :
  forall s s', applyOperations ops s = Some s' ->
    totalTokens s' = totalTokens s.
Proof.
  induction ops as [|o ops IH]; intros s s' Hrun; cbn in Hrun.
  - injection Hrun as <-. reflexivity.
  - destruct (applyOperation o s) as [s1|] eqn:Ho; [|discriminate].
    rewrite (IH _ _ Hrun). eapply applyOperation_conserves; eassumption.
Qed.

(** An operation on a candidate that exists goes through. *)
Lemma applyOperation_defined o s :
  (operationIndex o < length (snd (fst s)))%nat ->
  is_Some (applyOperation o s).
Proof.
  destruct s as [[p c] t]. cbn [fst snd]. intros Hi.
  destruct (lookup_lt_is_Some_2 c _ Hi) as [cand Hc].
  destruct o; cbn in Hc |- *; rewrite Hc.
  - destruct (isBonded (Status cand)); cbn; eauto.
  - unfold candidateAddTokens.
    destruct (isBonded (Status cand)); cbn; eauto.
  - unfold candidateRemoveShares.
    destruct (isBonded (Status cand)); cbn; eauto.
Qed.

(** ** The unit tests of the pool, run on the model *)

(** TestAddTokensBonded and TestRemoveSharesBonded, on the empty pool. *)
Example test_AddTokensBonded :
  let poolA := mkPool 0 ZeroRat ZeroRat 0 0 0 (7 # 100)%Q in
  let '(poolB, sharesB) := addTokensBonded poolA 10 in
  Qeq_bool (bondedShareExRate poolB) OneRat = true
  /\ Qeq_bool (BondedShares poolB) (BondedShares poolA + sharesB) = true
  /\ BondedPool poolB = BondedPool poolA + 10
  /\ Qeq_bool (BondedShares poolB) (NewRat (BondedPool poolB)) = true.
Proof. vm_compute. repeat split. Qed.

Example test_RemoveSharesBonded :
  let poolA := mkPool 0 ZeroRat ZeroRat 0 0 0 (7 # 100)%Q in
  let '(poolB, tokensB) := removeSharesBonded poolA (NewRat 10) in
  Qeq_bool (bondedShareExRate poolB) OneRat = true
  /\ Qeq_bool (BondedShares poolB) (BondedShares poolA - NewRat 10) = true
  /\ BondedPool poolB = BondedPool poolA - tokensB
  /\ Qeq_bool (BondedShares poolB) (NewRat (BondedPool poolB)) = true.
Proof. vm_compute. repeat split. Qed.

(** The spec's scenario "bond then unbond". *)
Example bond_then_unbond :
  let pool := mkPool 0 ZeroRat ZeroRat 0 0 0 (7 # 100)%Q in
  let '(pool1, shares) := addTokensBonded pool 10 in
  let '(pool2, tokens) := removeSharesBonded pool1 shares in
  BondedPool pool1 = 10 /\ Qeq_bool (BondedShares pool1) 10 = true
  /\ BondedPool pool2 = 0 /\ Qeq_bool (BondedShares pool2) 0 = true
  /\ tokens = 10.
Proof. vm_compute. repeat split. Qed.

(** TestCandidateAddTokens and TestCandidateRemoveShares: a bonded
    candidate with 9 assets and 9 liabilities in a pool of 9 bonded shares
    and tokens.  Removing 10 shares returns 10 coins and leaves the pool
    and the candidate one share short: the operations themselves do not
    refuse it. *)
Example test_CandidateAddTokens :
  let candA := mkCandidate Bonded "addrVal1" "pk1" (NewRat 9) (NewRat 9) in
  let poolA := mkPool 0 (Assets candA) ZeroRat (Evaluate (Assets candA)) 0 0
                      (7 # 100)%Q in
  let '(poolB, candB, sharesB) := candidateAddTokens poolA candA 10 in
  Qeq_bool sharesB (NewRat 10 * delegatorShareExRate candA) = true
  /\ Qeq_bool (Assets candB) (Assets candA + NewRat 10) = true
  /\ wrap64 (UnbondedPool poolB + BondedPool poolB)
     = wrap64 (wrap64 (10 + UnbondedPool poolA) + BondedPool poolA).
Proof. vm_compute. repeat split. Qed.

Example test_CandidateRemoveShares :
  let candA := mkCandidate Bonded "addrVal1" "pk1" (NewRat 9) (NewRat 9) in
  let poolA := mkPool 0 (Assets candA) ZeroRat (Evaluate (Assets candA)) 0 0
                      (7 # 100)%Q in
  let '(poolB, candB, coinsB) := candidateRemoveShares poolA candA (NewRat 10) in
  coinsB = 10
  /\ Qeq_bool (Assets candB)
       (Assets candA - NewRat 10 * delegatorShareExRate candA) = true
  /\ wrap64 (wrap64 (UnbondedPool poolB + BondedPool poolB) + coinsB)
     = wrap64 (UnbondedPool poolA + BondedPool poolA)
  /\ BondedPool poolB = -1 /\ Qeq_bool (BondedShares poolB) (-1) = true.
Proof. vm_compute. repeat split. Qed.

(** TestBondedToUnbondedPool and TestUnbonbedtoBondedPool, for any
    candidate and any pool whose two exchange rates are one. *)
Lemma test_BondedToUnbondedPool poolA candA :
  (bondedShareExRate poolA == OneRat)%Q ->
  let '(poolB, candB) := bondedToUnbondedPool poolA candA in
  Status candB = Unbonded
  /\ Assets candB = Assets candA
  /\ BondedPool poolB = wrap64 (BondedPool poolA - Evaluate (Assets candA))
  /\ UnbondedPool poolB
     = wrap64 (UnbondedPool poolA + Evaluate (Assets candA))
  /\ wrap64 (UnbondedPool poolB + BondedPool poolB)
     = wrap64 (BondedPool poolA + UnbondedPool poolA).
Proof.
  intros Hrate. cbn.
  assert (E : Evaluate (bondedShareExRate poolA * Assets candA)
              = Evaluate (Assets candA)).
  { unfold Evaluate. f_equal. apply Qfloor_comp.
    rewrite Hrate. unfold OneRat. ring. }
  rewrite E. repeat split; try reflexivity; int64_eq.
Qed.

Lemma test_UnbondedToBondedPool poolA candA :
  (unbondedShareExRate poolA == OneRat)%Q ->
  let '(poolB, candB) := unbondedToBondedPool poolA candA in
  Status candB = Bonded
  /\ Assets candB = Assets candA
  /\ BondedPool poolB = wrap64 (BondedPool poolA + Evaluate (Assets candA))
  /\ UnbondedPool poolB
     = wrap64 (UnbondedPool poolA - Evaluate (Assets candA))
  /\ wrap64 (UnbondedPool poolB + BondedPool poolB)
     = wrap64 (BondedPool poolA + UnbondedPool poolA).
Proof.
  intros Hrate. cbn.
  assert (E : Evaluate (unbondedShareExRate poolA * Assets candA)
              = Evaluate (Assets candA)).
  { unfold Evaluate. f_equal. apply Qfloor_comp.
    rewrite Hrate. unfold OneRat. ring. }
  rewrite E. repeat split; try reflexivity; int64_eq.
Qed.

(** ** Rationals *)

Lemma LT_zero_false_iff (x : Rat) : negb (LT x ZeroRat) = true <-> (0 <= x)%Q.
Proof.
  unfold LT, ZeroRat. rewrite negb_involutive. apply Qle_bool_iff.
Qed.

Lemma GT_false (a b : Rat) : GT a b = false -> (a <= b)%Q.
Proof.
  unfold GT. intros E. apply negb_false_iff in E.
  apply Qle_bool_imp_le. exact E.
Qed.

Lemma IsZero_true (r : Rat) : IsZero r = true -> (r == 0)%Q.
Proof. apply Qeq_bool_eq. Qed.

Lemma IsZero_false (r : Rat) : IsZero r = false -> ~ (r == 0)%Q.
Proof.
  unfold IsZero. intros E Hr. apply Qeq_eq_bool in Hr. congruence.
Qed.

Lemma NewRat_nonneg (z : Z) : 0 <= z -> (0 <= NewRat z)%Q.
Proof.
  intros Hz. unfold NewRat. change 0%Q with (inject_Z 0).
  rewrite <- Zle_Qle. exact Hz.
Qed.

Lemma Qdiv_nonneg (a b : Q) : (0 <= a)%Q -> (0 <= b)%Q -> (0 <= a / b)%Q.
Proof.
  intros Ha Hb. unfold Qdiv.
  apply Qmult_le_0_compat; [exact Ha|].
  apply Qinv_le_0_compat. exact Hb.
Qed.

Lemma Qdiv_mult_le (a l s : Q) :
  (0 <= a)%Q -> (0 < l)%Q -> (s <= l)%Q -> (a / l * s <= a)%Q.
Proof.
  intros Ha Hl Hs.
  assert (Hq : (0 <= a / l)%Q) by (apply Qdiv_nonneg; lra).
  assert (E : (a / l * l == a)%Q) by (field; lra).
  rewrite <- E at 2. nra.
Qed.

(** ** Candidates stay non-negative *)

Lemma delegatorShareExRate_nonneg c :
  nonnegativeCandidate c -> (0 <= delegatorShareExRate c)%Q.
Proof.
  intros [Ha Hl]. unfold delegatorShareExRate, OneRat.
  destruct (IsZero (Liabilities c)); [lra|].
  apply Qdiv_nonneg; assumption.
Qed.

Lemma candidateAddTokens_nonneg p c amount :
  nonnegativePool p -> nonnegativeCandidate c -> 0 <= amount ->
  nonnegativeCandidate (snd (fst (candidateAddTokens p c amount))).
Proof.
  intros (_ & _ & Hb & Hu) Hc Hamt.
  pose proof (delegatorShareExRate_nonneg c Hc) as Hex.
  pose proof (NewRat_nonneg amount Hamt) as Hn.
  destruct Hc as [Ha Hl].
  unfold candidateAddTokens, addTokensBonded, addTokensUnbonded.
  destruct (isBonded (Status c)); cbn [fst snd];
    unfold nonnegativeCandidate; cbn [Assets Liabilities withShares].
  - pose proof (Qdiv_nonneg _ _ Hn Hb) as Hi.
    split; [lra|]. nra.
  - pose proof (Qdiv_nonneg _ _ Hn Hu) as Hi.
    split; [lra|]. nra.
Qed.

Lemma candidateRemoveShares_nonneg p c shares :
  nonnegativeCandidate c -> (0 <= shares)%Q -> (shares <= Liabilities c)%Q ->
  nonnegativeCandidate (snd (fst (candidateRemoveShares p c shares))).
Proof.
  intros [Ha Hl] Hs0 Hs.
  assert (Hg : (delegatorShareExRate c * shares <= Assets c)%Q).
  { unfold delegatorShareExRate, OneRat.
    destruct (IsZero (Liabilities c)) eqn:Z.
    - apply IsZero_true in Z. nra.
    - apply IsZero_false in Z. apply Qdiv_mult_le; [exact Ha| |exact Hs].
      apply Qle_lteq in Hl. destruct Hl as [Hl|Hl]; [exact Hl|].
      exfalso. apply Z. symmetry. exact Hl. }
  unfold candidateRemoveShares, removeSharesBonded, removeSharesUnbonded.
  destruct (isBonded (Status c)); cbn [fst snd];
    unfold nonnegativeCandidate; cbn [Assets Liabilities withShares];
    split; lra.
Qed.

(** The share amount [randomOperation] ends up removing is between zero
    and the candidate's liabilities. *)
Lemma guarded_shares_range (drawn : Z) (liabilities : Rat) :
  0 <= drawn -> (0 <= liabilities)%Q ->
  let shares := if GT (NewRat drawn) liabilities
                then (liabilities / NewRat 2)%Q else NewRat drawn in
  (0 <= shares)%Q /\ (shares <= liabilities)%Q.
Proof.
  intros Hd Hl. cbn zeta.
  destruct (GT (NewRat drawn) liabilities) eqn:G.
  - assert (E : (liabilities / NewRat 2 == liabilities * (1 # 2))%Q)
      by (unfold NewRat; field).
    rewrite E. split; lra.
  - split; [apply NewRat_nonneg; exact Hd|apply GT_false; exact G].
Qed.

Lemma postcondition_nonnegative p :
  postcondition p = true <-> nonnegativePool p.
Proof.
  unfold postcondition, nonnegativePool.
  rewrite !andb_true_iff, !LT_zero_false_iff. tauto.
Qed.



(** ** Shares held by the candidates *)

Lemma heldBy_nonneg b c : nonnegativeCandidate c -> (0 <= heldBy b c)%Q.
Proof.
  intros [Ha _]. unfold heldBy, ZeroRat.
  destruct (Bool.eqb _ _); [exact Ha|lra].
Qed.

Lemma held_nonneg b cs :
  Forall nonnegativeCandidate cs -> (0 <= held b cs)%Q.
Proof.
  induction 1 as [|c cs Hc _ IH]; cbn [held]; unfold ZeroRat; [lra|].
  pose proof (heldBy_nonneg b c Hc). lra.
Qed.

Lemma held_lookup_le b cs :
  forall i c, Forall nonnegativeCandidate cs -> cs !! i = Some c ->
    (heldBy b c <= held b cs)%Q.
Proof.
  induction cs as [|c0 cs IH]; intros i c Hall Hi; [discriminate|].
  inversion Hall as [|? ? H0 Hall']; subst. cbn [held].
  destruct i as [|i]; cbn in Hi.
  - injection Hi as ->. pose proof (held_nonneg b cs Hall'). lra.
  - pose proof (IH _ _ Hall' Hi). pose proof (heldBy_nonneg b c0 H0). lra.
Qed.

Lemma held_insert b cs :
  forall i c c', cs !! i = Some c ->
    (held b (<[i := c']> cs) == held b cs - heldBy b c + heldBy b c')%Q.
Proof.
  induction cs as [|c0 cs IH]; intros i c c' Hi; [discriminate|].
  destruct i as [|i]; cbn in Hi |- *.
  - injection Hi as ->. lra.
  - rewrite (IH _ _ c' Hi). lra.
Qed.

Lemma held_snoc b cs c :
  (held b (cs ++ [c]) == held b cs + heldBy b c)%Q.
Proof.
  induction cs as [|c0 cs IH]; cbn; unfold ZeroRat; [lra|].
  rewrite IH. lra.
Qed.

Lemma sharesHeldLoop_held cs :
  (fst (sharesHeldLoop cs) == held true cs)%Q
  /\ (snd (sharesHeldLoop cs) == held false cs)%Q.
Proof.
  unfold sharesHeldLoop.
  enough (G : forall b u : Rat,
    let r := fold_left
      (fun (held : Rat * Rat) (candidate : Candidate) =>
         let '(bondedSharesHeld, unbondedSharesHeld) := held in
         if isBonded (Status candidate)
         then ((bondedSharesHeld + Assets candidate)%Q, unbondedSharesHeld)
         else (bondedSharesHeld, (unbondedSharesHeld + Assets candidate)%Q))
      cs (b, u) in
    (fst r == b + held true cs)%Q /\ (snd r == u + held false cs)%Q).
  { destruct (G ZeroRat ZeroRat) as [G1 G2]. unfold ZeroRat in *.
    split; [rewrite G1|rewrite G2]; lra. }
  induction cs as [|c cs IH]; intros b u; cbn zeta.
  - cbn. unfold ZeroRat. split; lra.
  - cbn [fold_left held]. unfold heldBy.
    destruct (isBonded (Status c)); cbn [Bool.eqb].
    + destruct (IH (b + Assets c)%Q u) as [G1 G2].
      unfold ZeroRat. split; [rewrite G1|rewrite G2]; lra.
    + destruct (IH b (u + Assets c)%Q) as [G1 G2].
      unfold ZeroRat. split; [rewrite G1|rewrite G2]; lra.
Qed.

(** ** Token values *)

Lemma Qfloor_nonneg (x : Q) : (0 <= x)%Q -> 0 <= Qfloor x.
Proof.
  intros Hx. change 0 with (Qfloor (inject_Z 0)).
  apply Qfloor_resp_le. exact Hx.
Qed.

Lemma Qfloor_le_Z (x : Q) (n : Z) : (x <= inject_Z n)%Q -> Qfloor x <= n.
Proof.
  intros Hx. rewrite <- (Qfloor_Z n). apply Qfloor_resp_le. exact Hx.
Qed.

(** The tokens behind [g] of the [S] shares of a pool holding [P] tokens
    are between 0 and [P]. *)
Lemma tokenValue_range (P : Z) (S g : Rat) :
  0 <= P -> (0 <= g)%Q -> (g <= S)%Q ->
  0 <= Qfloor ((if IsZero S then OneRat else NewRat P / S) * g) <= P.
Proof.
  intros HP Hg HS.
  pose proof (NewRat_nonneg P HP) as HPq. unfold NewRat in *.
  destruct (IsZero S) eqn:Z; unfold OneRat.
  - apply IsZero_true in Z.
    assert (E : (1 * g == 0)%Q) by lra.
    rewrite E. change (Qfloor 0) with 0. lia.
  - apply IsZero_false in Z.
    assert (HSpos : (0 < S)%Q).
    { destruct (Qlt_le_dec 0 S) as [|Hle]; [assumption|].
      exfalso. apply Z. lra. }
    split.
    + apply Qfloor_nonneg.
      apply Qmult_le_0_compat; [apply Qdiv_nonneg; lra|exact Hg].
    + apply Qfloor_le_Z. apply Qdiv_mult_le; assumption.
Qed.

Lemma Evaluate_small (x : Q) (P : Z) :
  0 <= Qfloor x <= P -> P < 2 ^ 63 -> Evaluate x = Qfloor x.
Proof.
  intros Hx HP. unfold Evaluate. apply wrap64_small. lia.
Qed.

Lemma bonded_value_range p g :
  0 <= BondedPool p < 2 ^ 63 -> (0 <= g)%Q -> (g <= BondedShares p)%Q ->
  0 <= Evaluate (bondedShareExRate p * g) <= BondedPool p.
Proof.
  intros HP Hg HS.
  pose proof (tokenValue_range (BondedPool p) (BondedShares p) g
                ltac:(lia) Hg HS) as Hr.
  unfold bondedShareExRate.
  rewrite (Evaluate_small _ (BondedPool p)) by (assumption || lia).
  exact Hr.
Qed.

Lemma unbonded_value_range p g :
  0 <= UnbondedPool p < 2 ^ 63 -> (0 <= g)%Q -> (g <= UnbondedShares p)%Q ->
  0 <= Evaluate (unbondedShareExRate p * g) <= UnbondedPool p.
Proof.
  intros HP Hg HS.
  pose proof (tokenValue_range (UnbondedPool p) (UnbondedShares p) g
                ltac:(lia) Hg HS) as Hr.
  unfold unbondedShareExRate.
  rewrite (Evaluate_small _ (UnbondedPool p)) by (assumption || lia).
  exact Hr.
Qed.

Lemma exRate_nonneg (P : Z) (S : Rat) :
  0 <= P -> (0 <= S)%Q ->
  (0 <= (if IsZero S then OneRat else NewRat P / S))%Q.
Proof.
  intros HP HS. destruct (IsZero S); unfold OneRat; [lra|].
  apply Qdiv_nonneg; [apply NewRat_nonneg; exact HP|exact HS].
Qed.

Lemma sound_nonnegative bound s : sound bound s -> nonnegative s.
Proof.
  destruct s as [[p c] t]. intros (Hc & Hb & Hu & HB & HU & _).
  pose proof (held_nonneg true c Hc). pose proof (held_nonneg false c Hc).
  split; [|exact Hc]. unfold nonnegativePool.
  assert (0 <= BondedShares p)%Q by lra.
  assert (0 <= UnbondedShares p)%Q by lra.
  repeat split; try assumption.
  - apply exRate_nonneg; assumption.
  - apply exRate_nonneg; assumption.
Qed.

(** ** The set-up states are sound *)

Lemma Evaluate_NewRat (a : Z) : 0 <= a < 2 ^ 63 -> Evaluate (NewRat a) = a.
Proof.
  intros Ha. unfold Evaluate, NewRat. rewrite Qfloor_Z.
  apply wrap64_small. lia.
Qed.

Lemma setupStep_sound (n : Z) acc d :
  validCandidateDraw d -> 0 <= n -> 10000 * (n + 1) < 2 ^ 63 ->
  sound (10000 * n) (acc, 0) ->
  sound (10000 * (n + 1)) (setupStep acc d, 0).
Proof.
  destruct acc as [p c]. intros [Ha Hl] Hn Hbig (Hc & Hb & Hu & HB & HU & HM).
  assert (Hcand : nonnegativeCandidate (randomCandidate d)).
  { split; cbn; apply NewRat_nonneg; lia. }
  unfold setupStep, sound.
  destruct (drawBonded d) eqn:Hcoin;
    unfold randomCandidate; rewrite Hcoin; cbn [isBonded Status Assets];
    rewrite (Evaluate_NewRat (drawAssets d)) by lia;
    cbn [BondedShares UnbondedShares BondedPool UnbondedPool
         withBonded withUnbonded];
    rewrite !held_snoc; unfold heldBy; cbn [isBonded Status Assets Bool.eqb];
    rewrite wrap64_small by lia;
    (split; [apply Forall_app; split;
               [exact Hc|constructor; [exact Hcand|constructor]]|]);
    unfold ZeroRat; repeat split; try lra; try lia.
Qed.

Lemma setupLoop_sound draws :
  forall (n : Z) acc,
    Forall validCandidateDraw draws -> 0 <= n ->
    n + Z.of_nat (length draws) <= 1000 ->
    sound (10000 * n) (acc, 0) ->
    sound (10000 * (n + Z.of_nat (length draws)))
          (fold_left setupStep draws acc, 0).
Proof.
  induction draws as [|d draws IH]; intros n acc Hall Hn Hlen Hacc.
  - cbn. rewrite Z.add_0_r. exact Hacc.
  - inversion Hall as [|? ? Hd Hall']; subst.
    cbn [fold_left length] in *.
    replace (n + Z.of_nat (S (length draws)))
      with ((n + 1) + Z.of_nat (length draws)) by lia.
    apply IH; [exact Hall'|lia|lia|].
    apply setupStep_sound; [exact Hd|lia|lia|exact Hacc].
Qed.

Lemma randomSetup_sound draws tokens :
  validSetup draws tokens ->
  sound (10000 * Z.of_nat (length draws)) (randomSetup draws tokens).
Proof.
  intros (Hlen & Hall & _). unfold randomSetup.
  pose proof (setupLoop_sound draws 0
                (mkPool 0 ZeroRat ZeroRat 0 0 0 (7 # 100)%Q, [])
                Hall ltac:(lia) ltac:(lia)) as H.
  rewrite Z.add_0_l in H.
  destruct (fold_left setupStep draws _) as [p c].
  apply H. cbn. unfold ZeroRat. repeat split; try lra; try lia. constructor.
Qed.

(** ** The operations keep states sound while the token counts fit int64 *)

Lemma removed_shares_range c shares :
  nonnegativeCandidate c -> (0 <= shares)%Q -> (shares <= Liabilities c)%Q ->
  (0 <= delegatorShareExRate c * shares)%Q
  /\ (delegatorShareExRate c * shares <= Assets c)%Q.
Proof.
  intros Hc Hs0 Hs. pose proof (delegatorShareExRate_nonneg c Hc) as Hex.
  destruct Hc as [Ha Hl]. split; [nra|].
  unfold delegatorShareExRate, OneRat.
  destruct (IsZero (Liabilities c)) eqn:Z.
  - apply IsZero_true in Z. nra.
  - apply IsZero_false in Z. apply Qdiv_mult_le; [exact Ha| |exact Hs].
    apply Qle_lteq in Hl. destruct Hl as [Hl|Hl]; [exact Hl|].
    exfalso. apply Z. symmetry. exact Hl.
Qed.

Lemma heldBy_same b c : isBonded (Status c) = b -> heldBy b c = Assets c.
Proof. intros <-. unfold heldBy. rewrite Bool.eqb_reflx. reflexivity. Qed.

Lemma heldBy_other b c :
  isBonded (Status c) = negb b -> heldBy b c = ZeroRat.
Proof.
  intros E. unfold heldBy. rewrite E. destruct b; reflexivity.
Qed.

Lemma opBondUnbond_sound bound index s :
  sound bound s -> bound < 2 ^ 63 ->
  (index < length (snd (fst s)))%nat ->
  exists s', opBondUnbond index s = Some s' /\ sound bound s'.
Proof.
  destruct s as [[p c] t]. cbn [fst snd].
  intros (Hc & Hb & Hu & HB & HU & HM) Hbig Hi.
  destruct (lookup_lt_is_Some_2 c _ Hi) as [cand Hcand].
  pose proof (Forall_lookup_1 _ _ _ _ Hc Hcand) as Hn.
  pose proof (held_lookup_le true c _ _ Hc Hcand) as Ht.
  pose proof (held_lookup_le false c _ _ Hc Hcand) as Hf.
  unfold opBondUnbond. rewrite Hcand.
  destruct (isBonded (Status cand)) eqn:E.
  - rewrite (heldBy_same true cand E) in Ht.
    pose proof (bonded_value_range p (Assets cand) ltac:(lia) (proj1 Hn)
                  ltac:(lra)) as Hv.
    eexists; split; [reflexivity|].
    cbn. rewrite !wrap64_small by lia.
    rewrite !(held_insert _ c _ _ _ Hcand).
    rewrite (heldBy_same true cand E), (heldBy_other false cand E).
    unfold heldBy. cbn. unfold ZeroRat.
    split; [apply Forall_insert; assumption|].
    repeat split; try lra; try lia.
  - rewrite (heldBy_same false cand E) in Hf.
    pose proof (unbonded_value_range p (Assets cand) ltac:(lia) (proj1 Hn)
                  ltac:(lra)) as Hv.
    eexists; split; [reflexivity|].
    cbn. rewrite !wrap64_small by lia.
    rewrite !(held_insert _ c _ _ _ Hcand).
    rewrite (heldBy_same false cand E), (heldBy_other true cand E).
    unfold heldBy. cbn. unfold ZeroRat.
    split; [apply Forall_insert; assumption|].
    repeat split; try lra; try lia.
Qed.

Lemma opAddTokens_sound bound tokens index s :
  sound bound s -> bound + 1000 < 2 ^ 63 -> 0 <= tokens < 1000 ->
  (index < length (snd (fst s)))%nat ->
  exists s', opAddTokens tokens index s = Some s' /\ sound (bound + 1000) s'.
Proof.
  destruct s as [[p c] t]. cbn [fst snd].
  intros Hs Hbig Htok Hi.
  pose proof (sound_nonnegative _ _ Hs) as [Hpool _].
  destruct Hs as (Hc & Hb & Hu & HB & HU & HM).
  destruct (lookup_lt_is_Some_2 c _ Hi) as [cand Hcand].
  pose proof (Forall_lookup_1 _ _ _ _ Hc Hcand) as Hn.
  pose proof (candidateAddTokens_nonneg p cand tokens Hpool Hn
                ltac:(lia)) as Hn'.
  pose proof (NewRat_nonneg tokens ltac:(lia)) as Hq.
  unfold opAddTokens. rewrite Hcand.
  unfold candidateAddTokens, addTokensBonded, addTokensUnbonded in *.
  destruct (isBonded (Status cand)) eqn:E;
    (eexists; split; [reflexivity|]);
    cbn in Hn' |- *; rewrite !wrap64_small by lia;
    rewrite !(held_insert _ c _ _ _ Hcand);
    unfold heldBy; cbn; rewrite E; cbn; unfold ZeroRat;
    (split; [apply Forall_insert; assumption|]);
    repeat split; try lra; try lia.
Qed.

Lemma opRemoveShares_sound bound drawn index s :
  sound bound s -> bound < 2 ^ 63 -> 0 <= drawn < 1000 ->
  (index < length (snd (fst s)))%nat ->
  exists s', opRemoveShares drawn index s = Some s' /\ sound bound s'.
Proof.
  destruct s as [[p c] t]. cbn [fst snd].
  intros (Hc & Hb & Hu & HB & HU & HM) Hbig Hd Hi.
  destruct (lookup_lt_is_Some_2 c _ Hi) as [cand Hcand].
  pose proof (Forall_lookup_1 _ _ _ _ Hc Hcand) as Hn.
  pose proof (held_lookup_le true c _ _ Hc Hcand) as Ht.
  pose proof (held_lookup_le false c _ _ Hc Hcand) as Hf.
  unfold opRemoveShares. rewrite Hcand.
  destruct (guarded_shares_range drawn (Liabilities cand)
              ltac:(lia) (proj2 Hn)) as [Hs0 Hs1].
  set (shares := if GT (NewRat drawn) (Liabilities cand)
                 then (Liabilities cand / NewRat 2)%Q else NewRat drawn) in *.
  pose proof (candidateRemoveShares_nonneg p cand shares Hn Hs0 Hs1) as Hn'.
  destruct (removed_shares_range cand shares Hn Hs0 Hs1) as [Hg0 Hg1].
  unfold candidateRemoveShares, removeSharesBonded, removeSharesUnbonded in *.
  destruct (isBonded (Status cand)) eqn:E.
  - rewrite (heldBy_same true cand E) in Ht.
    pose proof (bonded_value_range p _ ltac:(lia) Hg0 ltac:(lra)) as Hv.
    eexists; split; [reflexivity|].
    cbn in Hn' |- *. rewrite !wrap64_small by lia.
    rewrite !(held_insert _ c _ _ _ Hcand).
    unfold heldBy. cbn. rewrite E. cbn. unfold ZeroRat.
    split; [apply Forall_insert; assumption|].
    repeat split; try lra; try lia.
  - rewrite (heldBy_same false cand E) in Hf.
    pose proof (unbonded_value_range p _ ltac:(lia) Hg0 ltac:(lra)) as Hv.
    eexists; split; [reflexivity|].
    cbn in Hn' |- *. rewrite !wrap64_small by lia.
    rewrite !(held_insert _ c _ _ _ Hcand).
    unfold heldBy. cbn. rewrite E. cbn. unfold ZeroRat.
    split; [apply Forall_insert; assumption|].
    repeat split; try lra; try lia.
Qed.

Lemma sound_weaken bound bound' s :
  bound <= bound' -> sound bound s -> sound bound' s.
Proof.
  destruct s as [[p c] t]. intros Hle (Hc & Hb & Hu & HB & HU & HM).
  repeat split; try assumption. lia.
Qed.

Lemma applyOperation_sound bound o s :
  sound bound s -> bound + 1000 < 2 ^ 63 -> validOperation o ->
  (operationIndex o < length (snd (fst s)))%nat ->
  exists s', applyOperation o s = Some s' /\ sound (bound + 1000) s'.
Proof.
  intros Hs Hbig Hv Hi.
  destruct o as [index|tokens index|drawn index]; cbn in Hv, Hi |- *.
  - destruct (opBondUnbond_sound bound index s Hs ltac:(lia) Hi)
      as (s' & Ho & Hs').
    exists s'. split; [exact Ho|]. eapply sound_weaken; [|exact Hs']. lia.
  - apply opAddTokens_sound; assumption.
  - destruct (opRemoveShares_sound bound drawn index s Hs ltac:(lia) Hv Hi)
      as (s' & Ho & Hs').
    exists s'. split; [exact Ho|]. eapply sound_weaken; [|exact Hs']. lia.
Qed.

(** While the token counts fit int64 the re-verification never fires. *)
Lemma step_sound bound o s :
  sound bound s -> bound + 1000 < 2 ^ 63 -> validOperation o ->
  (operationIndex o < length (snd (fst s)))%nat ->
  exists s', step o s = Some s' /\ sound (bound + 1000) s'.
Proof.
  intros Hs Hbig Hv Hi.
  destruct (applyOperation_sound bound o s Hs Hbig Hv Hi) as (s' & Ho & Hs').
  exists s'. split; [|exact Hs'].
  unfold step. rewrite Ho. destruct s' as [[p c] t].
  pose proof (sound_nonnegative _ _ Hs') as [Hp _].
  apply postcondition_nonnegative in Hp. rewrite Hp. reflexivity.
Qed.

Lemma applyOperation_length o s s' :
  applyOperation o s = Some s' ->
  length (snd (fst s')) = length (snd (fst s)).
Proof.
  destruct s as [[p c] t].
  destruct o as [index|tokens index|drawn index];
    cbn [applyOperation opBondUnbond opAddTokens opRemoveShares];
    destruct (c !! index) as [cand|]; try discriminate.
  - destruct (isBonded (Status cand)); intros [= <-]; cbn;
      apply length_insert.
  - destruct (candidateAddTokens p cand tokens) as [[p1 cand1] issued].
    intros [= <-]. cbn. apply length_insert.
  - destruct (candidateRemoveShares p cand _) as [[p1 cand1] created].
    intros [= <-]. cbn. apply length_insert.
Qed.

(** A run of operations from a sound state goes through and ends in a
    sound state, as long as the token counts fit int64. *)
Lemma applyOperations_sound ops :
  forall bound s,
    sound bound s ->
    bound + 1000 * Z.of_nat (length ops) < 2 ^ 63 ->
    Forall validOperation ops ->
    Forall (fun o => (operationIndex o < length (snd (fst s)))%nat) ops ->
    exists s', applyOperations ops s = Some s'
               /\ sound (bound + 1000 * Z.of_nat (length ops)) s'.
Proof.
  induction ops as [|o ops IH]; intros bound s Hs Hbig Hv Hi.
  - exists s. split; [reflexivity|]. cbn. rewrite Z.add_0_r. exact Hs.
  - inversion Hv as [|? ? Hvo Hv']; subst.
    inversion Hi as [|? ? Hio Hi']; subst.
    cbn [length] in Hbig |- *.
    destruct (applyOperation_sound bound o s Hs ltac:(lia) Hvo Hio)
      as (s1 & Ho & Hs1).
    destruct (IH (bound + 1000) s1 Hs1 ltac:(lia) Hv') as (s' & Hrun & Hs').
    { rewrite (applyOperation_length _ _ _ Ho). exact Hi'. }
    exists s'. cbn [applyOperations]. rewrite Ho. split; [exact Hrun|].
    eapply sound_weaken; [|exact Hs']. lia.
Qed.

(** What TestIntegrationInvariants checks holds in every sound state
    that has the tokens of the initial one.  The test passes the initial
    slice for [cA]; it shares its backing array with the current one, which
    the operations write into, so the candidates checked are the current
    ones. *)
Lemma sound_assertInvariants bound pA cA tA pB cB tB :
  sound bound (pB, cB, tB) ->
  totalTokens (pB, cB, tB) = totalTokens (pA, cA, tA) ->
  assertInvariants pA cB tA pB cB tB.
Proof.
  intros Hs Htot.
  pose proof (sound_nonnegative _ _ Hs) as [(H1 & H2 & H3 & H4) Hc].
  destruct Hs as (_ & Hb & Hu & _).
  destruct (sharesHeldLoop_held cB) as [Gb Gu].
  assert (Hlt : forall x, (0 <= x)%Q -> LT x ZeroRat = false).
  { intros x Hx. apply negb_true_iff. apply LT_zero_false_iff. exact Hx. }
  unfold assertInvariants. cbn in Htot.
  repeat split; auto.
  - eapply Forall_impl; [exact Hc|].
    intros c Hn. pose proof (delegatorShareExRate_nonneg c Hn).
    destruct Hn. auto.
  - rewrite Gb, Hb. reflexivity.
  - rewrite Gu, Hu. reflexivity.
Qed.

Lemma setupLoop_length draws :
  forall acc,
    length (snd (fold_left setupStep draws acc))
    = (length (snd acc) + length draws)%nat.
Proof.
  induction draws as [|d draws IH]; intros [p c]; cbn [fold_left length snd].
  - lia.
  - rewrite IH. unfold setupStep. cbn [snd]. rewrite length_app. cbn. lia.
Qed.

(** X15.  TestIntegrationInvariants: from a set-up state, a hundred
    operations on candidates that exist all go through, and what
    [assertInvariants] requires holds after them, without any
    re-verification in between. *)
Lemma integration_invariants draws tokens ops :
  validSetup draws tokens ->
  Forall validOperation ops ->
  Forall (fun o => (operationIndex o < length draws)%nat) ops ->
  (length ops <= 100)%nat ->
  let '(pA, cA, tA) := randomSetup draws tokens in
  exists pB cB tB,
    applyOperations ops (pA, cA, tA) = Some (pB, cB, tB)
    /\ assertInvariants pA cB tA pB cB tB.
Proof.
  intros Hsetup Hv Hi Hlen.
  pose proof (randomSetup_sound draws tokens Hsetup) as Hs.
  destruct Hsetup as (Hdraws & _).
  assert (Hcount : length (snd (fst (randomSetup draws tokens)))
                   = length draws).
  { unfold randomSetup. cbn [fst snd]. rewrite setupLoop_length. reflexivity. }
  destruct (randomSetup draws tokens) as [[pA cA] tA] eqn:E.
  cbn [fst snd] in Hcount.
  destruct (applyOperations_sound ops _ _ Hs ltac:(lia) Hv)
    as ([[pB cB] tB] & Hrun & Hs').
  { cbn [fst snd]. rewrite Hcount. exact Hi. }
  exists pB, cB, tB. split; [exact Hrun|].
  eapply sound_assertInvariants; [exact Hs'|].
  eapply applyOperations_conserves. exact Hrun.
Qed.

Lemma step_applyOperation o s s' :
  step o s = Some s' -> applyOperation o s = Some s'.
Proof.
  unfold step. destruct (applyOperation o s) as [[[p c] t]|]; [|discriminate].
  destruct (postcondition p); [|discriminate]. intros [= <-]. reflexivity.
Qed.

(** The re-verification does not cut runs short: from a state of the
    ledger that is sound, every run of operations on candidates that exist
    goes through it, as long as the token counts fit int64. *)
Lemma runs_reachable ops :
  forall bound s,
    reachable s -> sound bound s ->
    bound + 1000 * Z.of_nat (length ops) < 2 ^ 63 ->
    Forall validOperation ops ->
    Forall (fun o => (operationIndex o < length (snd (fst s)))%nat) ops ->
    exists s', applyOperations ops s = Some s' /\ reachable s'.
Proof.
  induction ops as [|o ops IH]; intros bound s Hr Hs Hbig Hv Hi.
  - exists s. split; [reflexivity|exact Hr].
  - inversion Hv as [|? ? Hvo Hv']; subst.
    inversion Hi as [|? ? Hio Hi']; subst.
    cbn [length] in Hbig.
    destruct (step_sound bound o s Hs ltac:(lia) Hvo Hio) as (s1 & Ho & Hs1).
    pose proof (step_applyOperation _ _ _ Ho) as Ha.
    destruct (IH (bound + 1000) s1 (reachable_step _ _ _ Hr Hvo Ho) Hs1
                 ltac:(lia) Hv') as (s' & Hrun & Hr').
    { rewrite (applyOperation_length _ _ _ Ha). exact Hi'. }
    exists s'. cbn [applyOperations]. rewrite Ha. split; assumption.
Qed.

(** ** The properties of the ledger *)

(** C1.  Each operation of the ledger (bonding or unbonding a candidate,
    adding tokens to a candidate, removing shares from a candidate), and so
    each sequence of them, leaves the sum of the bonded pool, the unbonded
    pool and the tokens held outside unchanged: tokens only move between
    the three. *)
Theorem total_tokens_conserved :
  (forall (o : Operation) (s s' : StakingState),
     applyOperation o s = Some s' -> totalTokens s' = totalTokens s)
  /\ (forall (ops : list Operation) (s s' : StakingState),
        applyOperations ops s = Some s' -> totalTokens s' = totalTokens s).
Proof.
  split.
  - exact applyOperation_conserves.
  - exact applyOperations_conserves.
Qed.


(** C5.  Moving a candidate from the bonded to the unbonded pool, or
    back, takes the candidate's token value out of one pool and puts the
    same amount into the other, so that the two token counts change by
    equal and opposite amounts; the candidate keeps its assets and its
    liabilities, and only its status and the pool whose totals its shares
    count in change. *)
Theorem pool_transition (p : Pool) (candidate : Candidate) :
  (let value := Evaluate (bondedShareExRate p * Assets candidate) in
   let (p', candidate') := bondedToUnbondedPool p candidate in
   BondedPool p' = wrap64 (BondedPool p - value)
   /\ UnbondedPool p' = wrap64 (UnbondedPool p + value)
   /\ wrap64 (UnbondedPool p' + BondedPool p')
      = wrap64 (UnbondedPool p + BondedPool p)
   /\ BondedShares p' = (BondedShares p - Assets candidate)%Q
   /\ UnbondedShares p' = (UnbondedShares p + Assets candidate)%Q
   /\ candidate' = withStatus candidate Unbonded
   /\ Assets candidate' = Assets candidate
   /\ Liabilities candidate' = Liabilities candidate)
  /\
  (let value := Evaluate (unbondedShareExRate p * Assets candidate) in
   let (p', candidate') := unbondedToBondedPool p candidate in
   UnbondedPool p' = wrap64 (UnbondedPool p - value)
   /\ BondedPool p' = wrap64 (BondedPool p + value)
   /\ wrap64 (UnbondedPool p' + BondedPool p')
      = wrap64 (UnbondedPool p + BondedPool p)
   /\ UnbondedShares p' = (UnbondedShares p - Assets candidate)%Q
   /\ BondedShares p' = (BondedShares p + Assets candidate)%Q
   /\ candidate' = withStatus candidate Bonded
   /\ Assets candidate' = Assets candidate
   /\ Liabilities candidate' = Liabilities candidate).
Proof.
  split; cbn; repeat split; try reflexivity; int64_eq.
Qed.

Lemma total_tokens_conserved_witness :
  let s := randomSetup [mkCandidateDraw true "k1" 9 9;
                        mkCandidateDraw false "k2" 5 3] 100 in
  let ops := [AddTokens 10 0; BondUnbond 1; RemoveShares 7 0] in
  exists s', applyOperations ops s = Some s' /\ totalTokens s' = totalTokens s.
Proof.
  cbv zeta. eexists. split.
  - vm_compute. reflexivity.
  - apply (proj2 total_tokens_conserved
             [AddTokens 10 0; BondUnbond 1; RemoveShares 7 0]).
    vm_compute. reflexivity.
Defined.


(** ** More on the test harness *)

Lemma setupLoop_candidates draws :
  forall acc,
    snd (fold_left setupStep draws acc)
    = snd acc ++ map randomCandidate draws.
Proof.
  induction draws as [|d draws IH]; intros [p c]; cbn [fold_left map snd].
  - rewrite app_nil_r. reflexivity.
  - rewrite IH. unfold setupStep. cbn [snd].
    rewrite <- app_assoc. reflexivity.
Qed.

Lemma setupLoop_shares_tokens draws :
  forall (n : Z) acc,
    Forall validCandidateDraw draws -> 0 <= n ->
    n + Z.of_nat (length draws) <= 1000 ->
    (BondedShares (fst acc) == NewRat (BondedPool (fst acc)))%Q ->
    (UnbondedShares (fst acc) == NewRat (UnbondedPool (fst acc)))%Q ->
    0 <= BondedPool (fst acc) <= 10000 * n ->
    0 <= UnbondedPool (fst acc) <= 10000 * n ->
    let p := fst (fold_left setupStep draws acc) in
    (BondedShares p == NewRat (BondedPool p))%Q
    /\ (UnbondedShares p == NewRat (UnbondedPool p))%Q.
Proof.
  induction draws as [|d draws IH]; intros n [p c] Hall Hn Hlen Hb Hu HB HU.
  - cbn. split; assumption.
  - inversion Hall as [|? ? [Ha Hl] Hall']; subst.
    cbn [fold_left length fst] in *.
    apply (IH (n + 1)); try assumption; try lia;
      unfold setupStep, randomCandidate;
      destruct (drawBonded d);
      cbn [isBonded Status Assets fst BondedShares UnbondedShares
           BondedPool UnbondedPool withBonded withUnbonded];
      rewrite ?(Evaluate_NewRat (drawAssets d)) by lia;
      rewrite ?wrap64_small by lia;
      unfold NewRat in *; rewrite ?inject_Z_plus; try lra; try lia.
Qed.

(** X9.  For draws in the generator's ranges, [randomSetup] returns the
    drawn candidates in the order drawn and the drawn tokens, and a pool
    in which each of the two share totals equals the token count of that
    pool and the shares its candidates hold, as the loop of
    [assertInvariants] adds them up. *)
Theorem randomSetup_backed (draws : list CandidateDraw) (tokens : Z) :
  validSetup draws tokens ->
  let '(p, c, t) := randomSetup draws tokens in
  c = map randomCandidate draws
  /\ t = tokens
  /\ (BondedShares p == NewRat (BondedPool p))%Q
  /\ (UnbondedShares p == NewRat (UnbondedPool p))%Q
  /\ (fst (sharesHeldLoop c) == BondedShares p)%Q
  /\ (snd (sharesHeldLoop c) == UnbondedShares p)%Q.
Proof.
  intros Hsetup.
  pose proof (randomSetup_sound draws tokens Hsetup) as Hs.
  destruct Hsetup as (Hlen & Hall & _).
  pose proof (setupLoop_candidates draws
                (mkPool 0 ZeroRat ZeroRat 0 0 0 (7 # 100)%Q, [])) as Hc.
  pose proof (setupLoop_shares_tokens draws 0
                (mkPool 0 ZeroRat ZeroRat 0 0 0 (7 # 100)%Q, [])
                Hall ltac:(lia) ltac:(lia)
                ltac:(reflexivity) ltac:(reflexivity)
                ltac:(cbn; lia) ltac:(cbn; lia)) as [Hb Hu].
  unfold randomSetup in *.
  destruct (fold_left setupStep draws _) as [p c].
  cbn [fst snd] in *. destruct Hs as (_ & Hhb & Hhu & _).
  destruct (sharesHeldLoop_held c) as [Gb Gu].
  repeat split; try assumption.
  - rewrite Gb, Hhb. reflexivity.
  - rewrite Gu, Hhu. reflexivity.
Qed.

(** X10.  An operation of [randomOperation] goes through exactly when the
    index it picked is inside the slice of candidates (otherwise the
    indexing panics); it then writes the picked slot only: the slice keeps
    its length and every other candidate. *)
Theorem applyOperation_frame (o : Operation) (p : Pool) (c : Candidates)
    (t : Z) :
  (is_Some (applyOperation o (p, c, t))
   <-> (operationIndex o < length c)%nat)
  /\ forall p' c' t',
       applyOperation o (p, c, t) = Some (p', c', t') ->
       length c' = length c
       /\ forall j : nat, j <> operationIndex o -> c' !! j = c !! j.
Proof.
  split.
  - split.
    + intros [s' Hs]. apply lookup_lt_is_Some.
      destruct o; cbn in Hs |- *;
        destruct (c !! index) as [cand|]; eauto; discriminate.
    + intros Hi. apply (applyOperation_defined o (p, c, t)). exact Hi.
  - intros p' c' t' Hs.
    split; [exact (applyOperation_length _ _ _ Hs)|].
    intros j Hj.
    destruct o as [index|tokens index|drawn index];
      cbn [applyOperation opBondUnbond opAddTokens opRemoveShares
           operationIndex] in Hs, Hj;
      destruct (c !! index) as [cand|]; try discriminate.
    + destruct (isBonded (Status cand)); injection Hs as <- <- <-;
        apply list_lookup_insert_ne; congruence.
    + destruct (candidateAddTokens p cand tokens) as [[p1 cand1] issued].
      injection Hs as <- <- <-. apply list_lookup_insert_ne. congruence.
    + destruct (candidateRemoveShares p cand _) as [[p1 cand1] created].
      injection Hs as <- <- <-. apply list_lookup_insert_ne. congruence.
Qed.

Lemma randomSetup_backed_witness :
  let '(p, c, t) := randomSetup [mkCandidateDraw true "k1" 9 9;
                                 mkCandidateDraw false "k2" 5 3] 100 in
  c = map randomCandidate [mkCandidateDraw true "k1" 9 9;
                           mkCandidateDraw false "k2" 5 3]
  /\ t = 100
  /\ (BondedShares p == NewRat (BondedPool p))%Q
  /\ (UnbondedShares p == NewRat (UnbondedPool p))%Q
  /\ (fst (sharesHeldLoop c) == BondedShares p)%Q
  /\ (snd (sharesHeldLoop c) == UnbondedShares p)%Q.
Proof.
  apply (randomSetup_backed [mkCandidateDraw true "k1" 9 9;
                             mkCandidateDraw false "k2" 5 3] 100).
  repeat split; try (cbn; lia). repeat constructor; cbn; lia.
Defined.

Lemma applyOperation_frame_witness :
  let c := [mkCandidate Bonded "a" "k1" 9 9; mkCandidate Unbonded "a" "k2" 5 3] in
  let p := mkPool 0 9 5 9 5 0 (7 # 100)%Q in
  exists p' c' t',
    applyOperation (AddTokens 10 0) (p, c, 100) = Some (p', c', t')
    /\ length c' = length c
    /\ c' !! 1%nat = c !! 1%nat.
Proof.
  cbv zeta.
  eexists _, _, _. split; [vm_compute; reflexivity|].
  match goal with
  | |- length ?c' = length ?c /\ _ =>
    destruct (proj2 (applyOperation_frame (AddTokens 10 0)
                       (mkPool 0 9 5 9 5 0 (7 # 100)%Q) c 100) _ c' _
                    ltac:(vm_compute; reflexivity)) as [Hl Hj]
  end.
  split; [exact Hl|]. apply Hj. cbn. lia.
Defined.

Lemma integration_invariants_witness :
  let '(pA, cA, tA) := randomSetup [mkCandidateDraw true "k1" 9 9;
                                    mkCandidateDraw false "k2" 5 3] 100 in
  exists pB cB tB,
    applyOperations [AddTokens 10 0; BondUnbond 1; RemoveShares 7 0]
                    (pA, cA, tA) = Some (pB, cB, tB)
    /\ assertInvariants pA cB tA pB cB tB.
Proof.
  apply (integration_invariants
           [mkCandidateDraw true "k1" 9 9; mkCandidateDraw false "k2" 5 3]
           100 [AddTokens 10 0; BondUnbond 1; RemoveShares 7 0]).
  - repeat split; try (cbn; lia). repeat constructor; cbn; lia.
  - repeat constructor; cbn; lia.
  - repeat constructor; cbn; lia.
  - cbn. lia.
Defined.

End StakeFacts.

(* ===================================================================== *)
(** * Facts about the delegation keeper *)
(* ===================================================================== *)

Module KeeperFacts.
Import Stake Keeper.

Lemma entriesOf_CompleteUnbonding k del val :
  entriesOf (CompleteUnbonding k del val) del val
  = filter (fun e => matured (blockTime k) e = false) (entriesOf k del val).
Proof.
  unfold CompleteUnbonding, entriesOf at 1. cbn [unbonding].
  destruct (filter (fun e => matured (blockTime k) e = false) _) as [|e es].
  - rewrite lookup_delete_eq. reflexivity.
  - rewrite lookup_insert_eq. reflexivity.
Qed.

Lemma pending_shorter (now : Z) (es : list UnbondingEntry) :
  Exists (fun e => completionTime e <= now) es ->
  (length (filter (fun e => matured now e = false) es) < length es)%nat.
Proof.
  induction 1 as [e es He|e es _ IH].
  - rewrite filter_cons.
    destruct (decide (matured now e = false)) as [Hm|Hm].
    + unfold matured in Hm. apply Z.leb_gt in Hm. lia.
    + pose proof (length_filter (fun e => matured now e = false) es).
      cbn [length]. lia.
  - rewrite filter_cons. cbn [length].
    destruct (decide (matured now e = false)); cbn [length]; lia.
Qed.

Lemma candidateAddTokens_fresh (val pk : string) :
  candidateAddTokens (mkPool 0 ZeroRat ZeroRat 0 0 0 (7 # 100)%Q)
                     (freshValidator val pk) 10
  = (mkPool 0 10%Q 0%Q 10 0 0 (7 # 100)%Q,
     mkCandidate Bonded val pk 10%Q 10%Q, 10%Q).
Proof. vm_compute. reflexivity. Qed.

Lemma candidateRemoveShares_six (val pk : string) :
  exists assets liabilities bondedShares,
    candidateRemoveShares (mkPool 0 10%Q 0%Q 10 0 0 (7 # 100)%Q)
                          (mkCandidate Bonded val pk 10%Q 10%Q) (NewRat 6)
    = (mkPool 0 bondedShares 0%Q 4 0 0 (7 # 100)%Q,
       mkCandidate Bonded val pk assets liabilities, 6)
    /\ (assets == 4)%Q /\ (liabilities == 4)%Q /\ (bondedShares == 4)%Q.
Proof.
  do 3 eexists. split; [vm_compute; reflexivity|].
  repeat split; reflexivity.
Qed.

(** C6.  On a ledger with a fresh validator (exchange rate 1) and a
    delegator holding at least 10 tokens: delegating 10 tokens gives the
    delegation 10 shares; undelegating 6 of them returns 6 tokens, leaves
    the delegation with 4 shares and the validator with 4 bonded tokens,
    and creates for the pair one unbonding entry of balance 6 whose
    completion time, the block time plus the unbonding period, lies in the
    future. *)
Theorem delegate_then_undelegate (del val : Addr) (funds now period : Z)
    (maxE : nat) :
  10 <= funds -> 0 < period -> (0 < maxE)%nat ->
  let k0 := freshLedger del val funds now period maxE in
  exists k1 issued k2 completion v2,
    Delegate k0 del val 10 = (k1, Ok issued)
    /\ (sharesOf k1 del val == 10)%Q
    /\ Undelegate k1 del val (NewRat 6) = (k2, Ok (6, completion))
    /\ (sharesOf k2 del val == 4)%Q
    /\ validators k2 !! val = Some v2
    /\ BondedTokens (pool k2) v2 = 4
    /\ entriesOf k2 del val = [mkEntry (blockHeight k0) completion 6 6]
    /\ completion = now + period
    /\ blockTime k2 < completion.
Proof.
  intros Hfunds Hperiod HmaxE k0.
  destruct (candidateRemoveShares_six val "")
    as (assets & liabilities & bondedShares & Hrem & Ea & El & Eb).
  assert (Hdel : Delegate k0 del val 10
    = (mkKeeper (mkPool 0 10%Q 0%Q 10 0 0 (7 # 100)%Q)
         (<[val := mkCandidate Bonded val "" 10%Q 10%Q]> (validators k0))
         (<[(del, val) := mkDelegation del val (ZeroRat + 10)%Q]> ∅) ∅
         (<[del := funds - 10]> (accounts k0)) 0 now maxE period,
       Ok 10%Q)).
  { unfold Delegate, k0, freshLedger, balanceOf, sharesOf.
    cbn [validators accounts pool delegations unbonding blockHeight blockTime
         Keeper.maxEntries unbondingPeriod].
    rewrite !lookup_singleton_eq, lookup_empty. cbn [default from_option id].
    destruct (Z.ltb_spec funds 10) as [|_]; [lia|].
    rewrite candidateAddTokens_fresh. reflexivity. }
  eexists _, _, _, _, _. split; [exact Hdel|].
  split.
  { unfold sharesOf. cbn [delegations]. rewrite lookup_insert_eq.
    cbn [shares]. unfold ZeroRat. lra. }
  split.
  { unfold Undelegate, entriesOf.
    cbn [validators accounts pool delegations unbonding blockHeight blockTime
         Keeper.maxEntries unbondingPeriod].
    rewrite lookup_empty, !lookup_insert_eq.
    cbn [default from_option id length shares].
    destruct (Nat.leb_spec maxE 0) as [|_]; [lia|].
    replace (GT (NewRat 6) (ZeroRat + 10)%Q) with false
      by (vm_compute; reflexivity).
    rewrite Hrem.
    replace (IsZero ((ZeroRat + 10)%Q - NewRat 6)%Q) with false
      by (vm_compute; reflexivity).
    reflexivity. }
  cbn [validators accounts pool delegations unbonding blockHeight blockTime
       Keeper.maxEntries unbondingPeriod].
  split.
  { unfold sharesOf. cbn [delegations]. rewrite lookup_insert_eq.
    cbn [shares]. vm_compute. reflexivity. }
  split; [apply lookup_insert_eq|].
  split.
  { unfold BondedTokens, bondedShareExRate.
    cbn [Status isBonded BondedShares BondedPool Assets].
    assert (Z : IsZero bondedShares = false).
    { unfold IsZero. rewrite Eb. reflexivity. }
    rewrite Z.
    assert (E : (NewRat 4 / bondedShares * assets == inject_Z 4)%Q).
    { rewrite Eb, Ea. reflexivity. }
    unfold Evaluate. rewrite E, Qfloor_Z. reflexivity. }
  split.
  { unfold entriesOf. cbn [unbonding]. rewrite lookup_insert_eq. reflexivity. }
  split; [reflexivity|]. lia.
Qed.

Lemma Undelegate_appends k del val amount k' tokens completion :
  Undelegate k del val amount = (k', Ok (tokens, completion)) ->
  entriesOf k' del val
  = entriesOf k del val
      ++ [mkEntry (blockHeight k) (blockTime k + unbondingPeriod k)
                  tokens tokens]
  /\ completion = blockTime k + unbondingPeriod k.
Proof.
  unfold Undelegate.
  destruct (maxEntries k <=? length (entriesOf k del val))%nat;
    [discriminate|].
  destruct (validators k !! val) as [v|]; [|discriminate].
  destruct (delegations k !! (del, val)) as [d|]; [|discriminate].
  destruct (GT amount (shares d)); [discriminate|].
  destruct (candidateRemoveShares (pool k) v amount) as [[p v'] created].
  intros [= <- <- <-]. unfold entriesOf at 1. cbn [unbonding].
  rewrite lookup_insert_eq. split; reflexivity.
Qed.

(** C7.  While a (delegator, validator) pair holds the maximum number of
    unbonding entries, [Undelegate] fails with [MaxEntriesExceeded] and
    returns the ledger it was given, pool balances and unbonding entries
    included.  Once the block time has reached the completion time of one
    of the entries and the pair's matured entries have been completed and
    removed, an undelegation of shares the delegation holds succeeds.  *)
Theorem undelegate_max_entries (k : KeeperState) (del val : Addr)
    (amount : Rat) :
  ((maxEntries k <= length (entriesOf k del val))%nat ->
   Undelegate k del val amount = (k, Err MaxEntriesExceeded))
  /\
  (forall v d now,
     length (entriesOf k del val) = maxEntries k ->
     Exists (fun e => completionTime e <= now) (entriesOf k del val) ->
     validators k !! val = Some v ->
     delegations k !! (del, val) = Some d ->
     (amount <= shares d)%Q ->
     exists k' tokens completion,
       Undelegate (CompleteUnbonding (WithBlockTime k now) del val)
                  del val amount
       = (k', Ok (tokens, completion))
       /\ completion = now + unbondingPeriod k).
Proof.
  split.
  - intros Hfull. unfold Undelegate.
    destruct (Nat.leb_spec (maxEntries k) (length (entriesOf k del val)));
      [reflexivity|lia].
  - intros v d now Hlen Hmat Hv Hd Hamt.
    pose proof (pending_shorter _ _ Hmat) as Hshort.
    unfold Undelegate. rewrite entriesOf_CompleteUnbonding.
    change (entriesOf (WithBlockTime k now) del val)
      with (entriesOf k del val).
    change (maxEntries (CompleteUnbonding (WithBlockTime k now) del val))
      with (maxEntries k).
    change (validators (CompleteUnbonding (WithBlockTime k now) del val))
      with (validators k).
    change (delegations (CompleteUnbonding (WithBlockTime k now) del val))
      with (delegations k).
    change (blockTime (WithBlockTime k now)) with now.
    destruct (Nat.leb_spec (maxEntries k)
      (length (filter (fun e => matured now e = false)
                 (entriesOf k del val)))); [lia|].
    rewrite Hv, Hd.
    assert (G : GT amount (shares d) = false).
    { unfold GT. apply negb_false_iff. apply Qle_bool_iff. exact Hamt. }
    rewrite G.
    destruct (candidateRemoveShares _ v amount) as [[p v'] tokens].
    eexists _, _, _. split; reflexivity.
Qed.

Lemma delegate_then_undelegate_witness :
  let k0 := freshLedger "delegator" "validator" 100 1000 1814400 7 in
  exists k1 issued k2 completion v2,
    Delegate k0 "delegator" "validator" 10 = (k1, Ok issued)
    /\ (sharesOf k1 "delegator" "validator" == 10)%Q
    /\ Undelegate k1 "delegator" "validator" (NewRat 6)
       = (k2, Ok (6, completion))
    /\ (sharesOf k2 "delegator" "validator" == 4)%Q
    /\ validators k2 !! "validator" = Some v2
    /\ BondedTokens (pool k2) v2 = 4
    /\ entriesOf k2 "delegator" "validator"
       = [mkEntry (blockHeight k0) completion 6 6]
    /\ completion = 1000 + 1814400
    /\ blockTime k2 < completion.
Proof.
  apply (delegate_then_undelegate "delegator" "validator" 100 1000 1814400 7);
    lia.
Defined.

Lemma undelegate_max_entries_witness :
  let k := mkKeeper (mkPool 0 10%Q 0%Q 10 0 0 (7 # 100)%Q)
             {[ "validator" := mkCandidate Bonded "validator" "" 10%Q 10%Q ]}
             {[ ("delegator", "validator")
                := mkDelegation "delegator" "validator" 10%Q ]}
             {[ ("delegator", "validator") := [mkEntry 0 500 1 1] ]}
             ∅ 0 100 1 400 in
  Undelegate k "delegator" "validator" 1%Q = (k, Err MaxEntriesExceeded)
  /\ exists k' tokens completion,
       Undelegate (CompleteUnbonding (WithBlockTime k 500)
                     "delegator" "validator")
                  "delegator" "validator" 1%Q
       = (k', Ok (tokens, completion))
       /\ completion = 500 + 400.
Proof.
  cbv zeta.
  match goal with
  | |- Undelegate ?k _ _ _ = _ /\ _ =>
    destruct (undelegate_max_entries k "delegator" "validator" 1%Q)
      as [Hfull Hagain]
  end.
  split.
  - apply Hfull. vm_compute. lia.
  - apply (Hagain (mkCandidate Bonded "validator" "" 10%Q 10%Q)
                  (mkDelegation "delegator" "validator" 10%Q) 500).
    + vm_compute. reflexivity.
    + unfold entriesOf. cbn [unbonding].
      rewrite lookup_singleton_eq. constructor. cbn. lia.
    + apply lookup_singleton_eq.
    + apply lookup_singleton_eq.
    + cbn. lra.
Defined.

End KeeperFacts.

(* ===================================================================== *)
(** * Facts about showing keys *)
(* ===================================================================== *)

Module KeysFacts.
Import Keys.

Lemma getBechKeyOut_unknown (E : Type) (bechPrefix : string) :
  bechPrefix <> "acc" -> bechPrefix <> "val" -> bechPrefix <> "cons" ->
  getBechKeyOut (E := E) bechPrefix
  = inr (Message ("invalid Bech32 prefix encoding provided: " ++ bechPrefix)).
Proof.
  intros H1 H2 H3. unfold getBechKeyOut.
  apply String.eqb_neq in H1, H2, H3. rewrite H1, H2, H3. reflexivity.
Qed.

(** X11.  [getBechKeyOut] knows the prefixes acc, val and cons, each with
    its own output function; any other prefix, the empty one included, is
    refused with a message that names it. *)
Theorem getBechKeyOut_prefixes (E : Type) (bechPrefix : string) :
  getBechKeyOut (E := E) "acc" = inl Bech32KeyOutput
  /\ getBechKeyOut (E := E) "val" = inl Bech32ValKeyOutput
  /\ getBechKeyOut (E := E) "cons" = inl Bech32ConsKeyOutput
  /\ (bechPrefix <> "acc" -> bechPrefix <> "val" -> bechPrefix <> "cons" ->
      getBechKeyOut (E := E) bechPrefix
      = inr (Message ("invalid Bech32 prefix encoding provided: "
                      ++ bechPrefix)))
  /\ ((exists fn, getBechKeyOut (E := E) bechPrefix = inl fn)
      <-> bechPrefix = "acc" \/ bechPrefix = "val" \/ bechPrefix = "cons").
Proof.
  split; [reflexivity|]. split; [reflexivity|]. split; [reflexivity|].
  split; [apply getBechKeyOut_unknown|]. split.
  - intros [fn Hfn]. unfold getBechKeyOut in Hfn.
    destruct (String.eqb_spec bechPrefix "acc"); [tauto|].
    destruct (String.eqb_spec bechPrefix "val"); [tauto|].
    destruct (String.eqb_spec bechPrefix "cons"); [tauto|discriminate].
  - intros [-> | [-> | ->]]; cbn; eauto.
Qed.

Lemma getBechKeyOut_prefixes_witness :
  getBechKeyOut (E := string) "Acc"
  = inr (Message "invalid Bech32 prefix encoding provided: Acc").
Proof.
  apply (getBechKeyOut_prefixes string "Acc"); discriminate.
Defined.

Section WithKeybase.
Context {StoredInfo PubKey E KeyOutput : Type}.
Context (GetKeyInfo : string -> StoredInfo + E).
Context (GetPubKey : StoredInfo -> PubKey).
Context (NewPubKeyMultisigThreshold : Z -> list PubKey -> PubKey).
Context (nilPubKey : PubKey).
Context (runBechKeyOut :
           bechKeyOutFn -> Info StoredInfo PubKey -> KeyOutput + E).
Context (errorText : E -> string).

(** ** The loop over the key names *)

Lemma pksLoop_found (args : list string) :
  forall (infos : list StoredInfo) (filled pad : list PubKey),
    Forall2 (fun keyName info => GetKeyInfo keyName = inl info) args infos ->
    length pad = length args ->
    pksLoop GetKeyInfo GetPubKey (length filled) args (filled ++ pad)
    = inl (filled ++ map GetPubKey infos).
Proof.
  induction args as [|keyName args IH]; intros infos filled pad Hall Hlen.
  - inversion Hall; subst. destruct pad; [reflexivity|discriminate].
  - inversion Hall as [|? info ? infos' Hk Hall']; subst.
    destruct pad as [|p0 pad]; [discriminate|].
    cbn [pksLoop map]. rewrite Hk.
    rewrite insert_app_r_alt by lia.
    rewrite Nat.sub_diag. cbn [list_insert].
    specialize (IH infos' (filled ++ [GetPubKey info]) pad Hall').
    rewrite length_app, Nat.add_1_r, <- !app_assoc in IH.
    apply IH. cbn in Hlen. lia.
Qed.

Lemma pksLoop_missing (args : list string) :
  forall (i start : nat) (pks : list PubKey) (keyName : string) (err : E),
    args !! i = Some keyName -> GetKeyInfo keyName = inr err ->
    (forall (j : nat) (k : string), (j < i)%nat -> args !! j = Some k ->
       exists info, GetKeyInfo k = inl info) ->
    pksLoop GetKeyInfo GetPubKey start args pks = inr (Passed err).
Proof.
  induction args as [|k0 args IH]; intros i start pks keyName err Hi Hk Hbefore;
    [discriminate|].
  cbn [pksLoop]. destruct i as [|i]; cbn in Hi.
  - injection Hi as ->. rewrite Hk. reflexivity.
  - destruct (Hbefore 0%nat k0 ltac:(lia) eq_refl) as [info0 H0].
    rewrite H0. apply (IH i _ _ keyName err Hi Hk).
    intros j k Hj Hjk. apply (Hbefore (S j) k); [lia|exact Hjk].
Qed.

(** X12.  When one of the names given to [runShowCmd] is not in the key
    store, the command returns the error of the first such name, whatever
    the flags: keys are looked up, in the order given, before any flag is
    checked. *)
Theorem runShowCmd_missing_key (flags : Flags) (args : list string)
    (i : nat) (keyName : string) (err : E) :
  args !! i = Some keyName -> GetKeyInfo keyName = inr err ->
  (forall (j : nat) (k : string), (j < i)%nat -> args !! j = Some k ->
     exists info, GetKeyInfo k = inl info) ->
  runShowCmd GetKeyInfo GetPubKey NewPubKeyMultisigThreshold nilPubKey
             flags args
  = inr (Passed err).
Proof.
  intros Hi Hk Hbefore. unfold runShowCmd.
  destruct args as [|k1 [|k2 rest]].
  - discriminate.
  - destruct i as [|i]; [|discriminate]. injection Hi as ->.
    rewrite Hk. reflexivity.
  - rewrite (pksLoop_missing _ i 0%nat _ keyName err Hi Hk Hbefore).
    reflexivity.
Qed.

(** X13.  When every name is in the key store, [runShowCmd] shows the
    stored key if one name was given and otherwise a key named "multi"
    made of the public keys in the order of the names with the threshold
    flag.  It refuses --address together with --pubkey, and --output
    together with either, before it looks at the Bech32 prefix; with a
    known prefix it prints once: the address, the public key, or the whole
    key info. *)
Theorem runShowCmd_found (flags : Flags) (args : list string)
    (infos : list StoredInfo) :
  Forall2 (fun keyName info => GetKeyInfo keyName = inl info) args infos ->
  let info :=
    match infos with
    | [stored] => Stored stored
    | _ => MultiSig
             (mkMultiSigKey "multi"
                (NewPubKeyMultisigThreshold (flagMultiSigThreshold flags)
                                            (map GetPubKey infos)))
    end in
  let run := runShowCmd GetKeyInfo GetPubKey NewPubKeyMultisigThreshold
                        nilPubKey flags args in
  (FlagAddress flags = true -> FlagPublicKey flags = true ->
   run = inr (Message "cannot use both --address and --pubkey at once"))
  /\ (OutputFlagChanged flags = true ->
      xorb (FlagAddress flags) (FlagPublicKey flags) = true ->
      run = inr (Message "cannot use --output with --address or --pubkey"))
  /\ (forall fn,
        getBechKeyOut (E := E) (FlagBechPrefix flags) = inl fn ->
        (FlagAddress flags = true -> FlagPublicKey flags = false ->
         OutputFlagChanged flags = false ->
         run = inl (printKeyAddress info fn))
        /\ (FlagAddress flags = false -> FlagPublicKey flags = true ->
            OutputFlagChanged flags = false ->
            run = inl (printPubKey info fn))
        /\ (FlagAddress flags = false -> FlagPublicKey flags = false ->
            run = inl (printKeyInfo info fn))).
Proof.
  intros Hall info run.
  assert (Hfound : run =
    (if FlagAddress flags && FlagPublicKey flags then
       inr (Message "cannot use both --address and --pubkey at once")
     else if OutputFlagChanged flags
             && (FlagAddress flags || FlagPublicKey flags) then
       inr (Message "cannot use --output with --address or --pubkey")
     else
       match getBechKeyOut (FlagBechPrefix flags) with
       | inr err => inr err
       | inl bechKeyOut =>
         if FlagAddress flags
         then inl (printKeyAddress info bechKeyOut)
         else if FlagPublicKey flags
              then inl (printPubKey info bechKeyOut)
              else inl (printKeyInfo info bechKeyOut)
       end)).
  { unfold run, runShowCmd, info.
    destruct Hall as [|k1 i1 args1 infos1 H1 Hrest].
    - reflexivity.
    - destruct Hrest as [|k2 i2 args2 infos2 H2 Hrest].
      + rewrite H1. reflexivity.
      + pose proof (pksLoop_found (k1 :: k2 :: args2) (i1 :: i2 :: infos2) []
                      (replicate (length (k1 :: k2 :: args2)) nilPubKey)
                      ltac:(repeat constructor; assumption)
                      ltac:(apply length_replicate)) as Hloop.
        cbn [app length] in Hloop. cbn [length]. rewrite Hloop.
        reflexivity. }
  rewrite Hfound. clear Hfound.
  split; [|split].
  - intros -> ->. reflexivity.
  - intros -> Hx.
    destruct (FlagAddress flags), (FlagPublicKey flags);
      try discriminate; reflexivity.
  - intros fn ->. repeat split.
    + intros -> -> ->. reflexivity.
    + intros -> -> ->. reflexivity.
    + intros -> ->. cbn. rewrite andb_false_r. reflexivity.
Qed.

(** X14.  The REST handler treats a request without a bech parameter as
    one for acc.  It answers 400, with the message naming the prefix, to
    any other unknown prefix, whether or not the key exists; with a known
    prefix it answers 404 with the key store's error when the name is not
    found. *)
Theorem GetKeyRequestHandler_responses (indent : bool) (name bech : string) :
  let handler :=
    GetKeyRequestHandler GetKeyInfo runBechKeyOut errorText indent name in
  handler "" = handler "acc"
  /\ (bech <> "" -> bech <> "acc" -> bech <> "val" -> bech <> "cons" ->
      handler bech
      = WriteHeader StatusBadRequest
          ("invalid Bech32 prefix encoding provided: " ++ bech))
  /\ (forall err,
        GetKeyInfo name = inr err ->
        bech = "" \/ bech = "acc" \/ bech = "val" \/ bech = "cons" ->
        handler bech = WriteHeader StatusNotFound (errorText err)).
Proof.
  cbn zeta. unfold GetKeyRequestHandler. split; [reflexivity|]. split.
  - intros H0 H1 H2 H3.
    apply String.eqb_neq in H0. rewrite H0.
    rewrite (getBechKeyOut_unknown E bech H1 H2 H3). reflexivity.
  - intros err Hk [-> | [-> | [-> | ->]]]; cbn; rewrite Hk; reflexivity.
Qed.

End WithKeybase.

Lemma runShowCmd_missing_key_witness :
  let GetKeyInfo := fun k : string =>
    if String.eqb k "alice" then inl "alice-info" else inr "key not found" in
  runShowCmd GetKeyInfo (fun i : string => i) (fun _ pks => String.concat "" pks) ""
             (mkFlags true true "nope" 1 true) ["alice"; "bob"; "carol"]
  = inr (Passed "key not found").
Proof.
  cbv zeta.
  apply (runShowCmd_missing_key
           (fun k : string =>
              if String.eqb k "alice" then inl "alice-info"
              else inr "key not found")
           (fun i : string => i) (fun _ pks => String.concat "" pks) ""
           (mkFlags true true "nope" 1 true) ["alice"; "bob"; "carol"]
           1%nat "bob" "key not found").
  - reflexivity.
  - reflexivity.
  - intros j k Hj Hjk. destruct j as [|j]; [|lia].
    injection Hjk as <-. exists "alice-info". reflexivity.
Defined.

Lemma runShowCmd_found_witness :
  let GetKeyInfo := fun k : string => inl (B := string) (String.append k "-info") in
  runShowCmd GetKeyInfo (fun i : string => i) (fun _ pks => String.concat "" pks) ""
             (mkFlags true false "val" 2 false) ["alice"; "bob"]
  = inl (printKeyAddress
           (MultiSig (mkMultiSigKey "multi" "alice-infobob-info"))
           Bech32ValKeyOutput).
Proof.
  cbv zeta.
  destruct (runShowCmd_found
              (fun k : string => inl (B := string) (String.append k "-info"))
              (fun i : string => i) (fun _ pks => String.concat "" pks) ""
              (mkFlags true false "val" 2 false) ["alice"; "bob"]
              ["alice-info"; "bob-info"]
              ltac:(repeat constructor)) as (_ & _ & Hprint).
  destruct (Hprint Bech32ValKeyOutput eq_refl) as (Haddr & _ & _).
  exact (Haddr eq_refl eq_refl eq_refl).
Defined.

Lemma GetKeyRequestHandler_responses_witness :
  let GetKeyInfo := fun k : string =>
    if String.eqb k "alice" then inl "alice-info" else inr "key not found" in
  let handler :=
    GetKeyRequestHandler GetKeyInfo
      (fun _ (_ : Info string string) => inl (B := string) "out")
      (fun e : string => e) false in
  handler "bob" "xyz"
  = WriteHeader 400 "invalid Bech32 prefix encoding provided: xyz"
  /\ handler "bob" "" = WriteHeader 404 "key not found".
Proof.
  cbv zeta.
  destruct (GetKeyRequestHandler_responses
              (fun k : string =>
                 if String.eqb k "alice" then inl "alice-info"
                 else inr "key not found")
              (fun _ (_ : Info string string) => inl (B := string) "out")
              (fun e : string => e) false "bob" "xyz") as (_ & H400 & _).
  destruct (GetKeyRequestHandler_responses
              (fun k : string =>
                 if String.eqb k "alice" then inl "alice-info"
                 else inr "key not found")
              (fun _ (_ : Info string string) => inl (B := string) "out")
              (fun e : string => e) false "bob" "") as (_ & _ & H404).
  split.
  - apply H400; discriminate.
  - apply (H404 "key not found"); [reflexivity|left; reflexivity].
Defined.

End KeysFacts.
